(** * The saga execution coordinator (coordinator.go)

    A shallow embedding of [ExecutionCoordinator] and of the functions of
    coordinator.go: [NewCoordinator], [Play], [execStep], [abort],
    [compensateStep], [addParams], [isReturnError], [getFuncValue],
    [checkErr] and [RandString].

    The coordinator is stateful code that calls into external
    collaborators: the log store, the clock, the random source and the
    registered callables.  It is modelled in a state-and-panic monad over a
    [Machine] holding the coordinator's fields, the state of the outside
    world, and the chronological record of every call made to the store
    and to the callables, with what they answered.

    Conventions of the model:
    - a Go panic is the outcome [Panic], with the value it carries; what
      [log.Panicln] prints on the standard logger before it panics is not
      recorded;
    - the collaborators act on the outside world only: a callable or the
      store does not reach into the coordinator;
    - a call of a callable returns or panics ([Call]); reflect's own checks
      of the arguments are part of what [Call] does;
    - the coordinator is built on a saga and a store that are not nil;
    - the values seen through reflect are those of [Value]. *)

From Stdlib Require Import ZArith List String Ascii Bool Arith Lia.
Import ListNotations.
Open Scope string_scope.
Open Scope list_scope.

(** ** Go values *)

(** A non-nil value of the interface type [error], as built by
    [errors.New]; a possibly nil [error] is an [option error]. *)
Record error := errors_New { Error : string }.

Definition Context := nat.

Inductive GoType :=
| TContext
| TError
| TInt
| TString
| TBool
| TPointer (elem : string).

Definition GoType_eqb (a b : GoType) : bool :=
  match a, b with
  | TContext, TContext | TError, TError | TInt, TInt
  | TString, TString | TBool, TBool => true
  | TPointer x, TPointer y => String.eqb x y
  | _, _ => false
  end.

(** A [reflect.Value] that holds data: the zero Value, or a value of one of
    the types of [GoType].  [VError] is a slot of static type [error]. *)
Inductive Value :=
| VInvalid
| VContext (c : Context)
| VError (e : option error)
| VInt (n : Z)
| VString (s : string)
| VBool (b : bool)
| VPointer (elem : string) (addr : option positive).

(** What a panic carries: the string built by [log.Panicln], the error
    given to [panic(err)], or a run-time error of Go or of reflect. *)
Inductive PanicValue :=
| PanicString (s : string)
| PanicError (e : error)
| PanicRuntime (msg : string).

Inductive CallResult :=
| Returned (results : list Value)
| Panicked (v : PanicValue).

(** A [reflect.Value] of kind Func: the declared parameter types of its
    type, and what [Call] does with a list of arguments in a given world
    (reflect's own checks of the arguments included). *)
Record FuncValue (World : Type) := {
  In : list GoType;
  Call : list Value -> World -> CallResult * World
}.
Arguments In {World} _.
Arguments Call {World} _ _ _.

(** A value of type [interface{}], as registered in a step. *)
Inductive Object (World : Type) :=
| ONil
| OData (v : Value)
| OFunc (f : FuncValue World).
Arguments ONil {World}.
Arguments OData {World} _.
Arguments OFunc {World} _.

Inductive Kind := KInvalid | KInterface | KInt | KString | KBool | KPointer | KFunc.

Definition Kind_eqb (a b : Kind) : bool :=
  match a, b with
  | KInvalid, KInvalid | KInterface, KInterface | KInt, KInt
  | KString, KString | KBool, KBool | KPointer, KPointer | KFunc, KFunc => true
  | _, _ => false
  end.

Definition Value_Kind (v : Value) : Kind :=
  match v with
  | VInvalid => KInvalid
  | VContext _ => KInterface
  | VError _ => KInterface
  | VInt _ => KInt
  | VString _ => KString
  | VBool _ => KBool
  | VPointer _ _ => KPointer
  end.

Definition Object_Kind {World} (obj : Object World) : Kind :=
  match obj with
  | ONil => KInvalid
  | OData v => Value_Kind v
  | OFunc _ => KFunc
  end.

(** [reflect.ValueOf(c.ctx)]: a nil context gives the zero Value. *)
Definition reflect_ValueOf (ctx : option Context) : Value :=
  match ctx with
  | Some c => VContext c
  | None => VInvalid
  end.

(** ** Types of the package declared outside coordinator.go *)

Inductive LogType :=
| LogTypeStartSaga
| LogTypeSagaStepExec
| LogTypeSagaStepCompensate
| LogTypeSagaAbort
| LogTypeSagaComplete.

Definition LogType_eqb (a b : LogType) : bool :=
  match a, b with
  | LogTypeStartSaga, LogTypeStartSaga
  | LogTypeSagaStepExec, LogTypeSagaStepExec
  | LogTypeSagaStepCompensate, LogTypeSagaStepCompensate
  | LogTypeSagaAbort, LogTypeSagaAbort
  | LogTypeSagaComplete, LogTypeSagaComplete => true
  | _, _ => false
  end.

Module Log.
(** Modelled from the spec: the struct [Log] is declared outside
    coordinator.go; its fields are those of the spec's Log Event
    (ExecutionID, Saga Name, Timestamp, Event Kind, optional Step Index,
    optional Step Name) under the names the struct literals of
    coordinator.go give them. *)
Record t := mk {
  ExecutionID : string;
  Name : string;
  Time : Z;
  Type_ : LogType;
  StepNumber : option nat;
  StepName : option string
}.
End Log.

Module Step.
(** Modelled from the spec: the struct [Step] is declared outside
    coordinator.go; a name, the forward action and its compensation, as
    coordinator.go reads them ([Name], [Func], [CompensateFunc]). *)
Record t (World : Type) := mk {
  Name : string;
  Func : Object World;
  CompensateFunc : Object World
}.
Arguments mk {World} _ _ _.
Arguments Name {World} _.
Arguments Func {World} _.
Arguments CompensateFunc {World} _.
End Step.

Module Saga.
(** Modelled from the spec: the struct [Saga] is declared outside
    coordinator.go; a name and the ordered sequence of steps. *)
Record t (World : Type) := mk {
  Name : string;
  steps : list (Step.t World)
}.
Arguments mk {World} _ _.
Arguments Name {World} _.
Arguments steps {World} _.
End Saga.

(** Modelled from the spec: the interface [Store] is declared outside
    coordinator.go; its one operation appends an event and returns an error
    on a storage fault.  It acts on the outside world. *)
Definition Store (World : Type) := Log.t -> World -> option error * World.

(** Modelled from the spec: the struct [Result] is declared outside
    coordinator.go; it carries the error of the run, nil on success. *)
Record Result := mkResult { Err : option error }.

(** ** The coordinator and its machine *)

Record ExecutionCoordinator (World : Type) := mkCoordinator {
  ExecutionID : string;
  returnedValuesFromFunc : list (list Value);
  toCompensate : list (FuncValue World);
  aborted : bool;
  err : option error;
  ctx : option Context;
  saga : Saga.t World;
  logStore : Store World
}.
Arguments mkCoordinator {World} _ _ _ _ _ _ _ _.
Arguments ExecutionID {World} _.
Arguments returnedValuesFromFunc {World} _.
Arguments toCompensate {World} _.
Arguments aborted {World} _.
Arguments err {World} _.
Arguments ctx {World} _.
Arguments saga {World} _.
Arguments logStore {World} _.

Definition NewCoordinator {World} (ctx : option Context) (saga : Saga.t World)
    (logStore : Store World) : ExecutionCoordinator World :=
  {| ExecutionID := "";
     returnedValuesFromFunc := [];
     toCompensate := [];
     aborted := false;
     err := None;
     ctx := ctx;
     saga := saga;
     logStore := logStore |}.

(** The calls the coordinator makes to its collaborators, with what they
    answered: an append to the log store, the call of the action of step
    [i], the call of the compensation registered at index [i]. *)
Inductive Event (World : Type) :=
| EvAppendLog (l : Log.t) (r : option error)
| EvAction (i : nat) (f : FuncValue World) (params : list Value) (r : CallResult)
| EvCompensate (i : nat) (f : FuncValue World) (params : list Value) (r : CallResult).
Arguments EvAppendLog {World} _ _.
Arguments EvAction {World} _ _ _ _.
Arguments EvCompensate {World} _ _ _ _.

Record Machine (World : Type) := mkMachine {
  coord : ExecutionCoordinator World;
  world : World;
  trace : list (Event World)
}.
Arguments mkMachine {World} _ _ _.
Arguments coord {World} _.
Arguments world {World} _.
Arguments trace {World} _.

Inductive Outcome (World A : Type) :=
| Ret (a : A) (m : Machine World)
| Panic (v : PanicValue) (m : Machine World).
Arguments Ret {World A} _ _.
Arguments Panic {World A} _ _.

Definition final {World A} (o : Outcome World A) : Machine World :=
  match o with
  | Ret _ m => m
  | Panic _ m => m
  end.

Definition M (World A : Type) := Machine World -> Outcome World A.

Definition ret {World A} (a : A) : M World A := fun m => Ret a m.

Definition bind {World A B} (c : M World A) (k : A -> M World B) : M World B :=
  fun m =>
    match c m with
    | Ret a m' => k a m'
    | Panic v m' => Panic v m'
    end.

Definition panic {World A} (v : PanicValue) : M World A := fun m => Panic v m.

Declare Scope saga_scope.
Delimit Scope saga_scope with saga.
Notation "x <- c ;; k" := (bind c (fun x => k))
  (at level 61, c at next level, right associativity) : saga_scope.
Notation "c ;; k" := (bind c (fun _ => k))
  (at level 61, right associativity) : saga_scope.
Open Scope saga_scope.

Definition getCoord {World} : M World (ExecutionCoordinator World) :=
  fun m => Ret (coord m) m.

Definition setCoord {World} (f : ExecutionCoordinator World -> ExecutionCoordinator World)
    : M World unit :=
  fun m => Ret tt (mkMachine (f (coord m)) (world m) (trace m)).

Definition record {World} (e : Event World) : M World unit :=
  fun m => Ret tt (mkMachine (coord m) (world m) (trace m ++ [e])).

Definition onWorld {World A} (f : World -> A * World) : M World A :=
  fun m => let (a, w) := f (world m) in Ret a (mkMachine (coord m) w (trace m)).

(** Field updates of the coordinator. *)
Definition set_returnedValuesFromFunc {World} (v : list (list Value))
    (c : ExecutionCoordinator World) :=
  mkCoordinator (ExecutionID c) v (toCompensate c) (aborted c) (err c)
                (ctx c) (saga c) (logStore c).

Definition set_toCompensate {World} (v : list (FuncValue World))
    (c : ExecutionCoordinator World) :=
  mkCoordinator (ExecutionID c) (returnedValuesFromFunc c) v (aborted c) (err c)
                (ctx c) (saga c) (logStore c).

Definition set_aborted {World} (v : bool) (c : ExecutionCoordinator World) :=
  mkCoordinator (ExecutionID c) (returnedValuesFromFunc c) (toCompensate c) v (err c)
                (ctx c) (saga c) (logStore c).

Definition set_err {World} (v : option error) (c : ExecutionCoordinator World) :=
  mkCoordinator (ExecutionID c) (returnedValuesFromFunc c) (toCompensate c) (aborted c) v
                (ctx c) (saga c) (logStore c).

Definition set_ExecutionID {World} (v : string) (c : ExecutionCoordinator World) :=
  mkCoordinator v (returnedValuesFromFunc c) (toCompensate c) (aborted c) (err c)
                (ctx c) (saga c) (logStore c).

(** ** The functions of coordinator.go *)

Definition newline : string := String (ascii_of_nat 10) EmptyString.

(** [fmt.Sprintln(msg, err)] for a slice of strings and an error: the slice
    between brackets, a space, the error's text and a newline. *)
Definition Sprintln (msg : list string) (e : error) : string :=
  ("[" ++ String.concat " " msg ++ "] " ++ Error e ++ newline)%string.

(** [IsNil] of a [reflect.Value]: panics on a kind that has no nil. *)
Definition IsNil (v : Value) : PanicValue + bool :=
  match v with
  | VError e => inr (match e with None => true | Some _ => false end)
  | VPointer _ addr => inr (match addr with None => true | Some _ => false end)
  | VContext _ => inr false
  | VInvalid => inl (PanicRuntime "reflect: call of reflect.Value.IsNil on zero Value")
  | VInt _ => inl (PanicRuntime "reflect: call of reflect.Value.IsNil on int Value")
  | VString _ => inl (PanicRuntime "reflect: call of reflect.Value.IsNil on string Value")
  | VBool _ => inl (PanicRuntime "reflect: call of reflect.Value.IsNil on bool Value")
  end.

(** [v.Interface().(error)]: the type assertion panics on a value that is
    not an error. *)
Definition Interface_error (v : Value) : PanicValue + error :=
  match v with
  | VError (Some e) => inr e
  | _ => inl (PanicRuntime "interface conversion: value is not error")
  end.

Definition isReturnError (result : list Value) : PanicValue + option error :=
  match rev result with
  | [] => inr None
  | lastv :: _ =>
      match IsNil lastv with
      | inl p => inl p
      | inr true => inr None
      | inr false =>
          match Interface_error lastv with
          | inl p => inl p
          | inr e => inr (Some e)
          end
      end
  end.

Definition addParams (values returned : list Value) : list Value :=
  if (1 <? List.length returned)%nat
  then values ++ firstn (List.length returned - 1) returned
  else values.

Section Coordinator.

Context {World : Type}.

(** [time.Now()], a reading of the clock of the outside world. *)
Variable time_Now : World -> Z * World.


Definition lift {A} (r : PanicValue + A) : M World A :=
  match r with
  | inl p => panic p
  | inr a => ret a
  end.

Definition checkErr (e : option error) (msg : list string) : M World unit :=
  match e with
  | Some e' => panic (PanicString (Sprintln msg e'))
  | None => ret tt
  end.

(** [c.logStore.AppendLog(l)]. *)
Definition AppendLog (l : Log.t) : M World (option error) :=
  c <- getCoord ;;
  r <- onWorld (logStore c l) ;;
  record (EvAppendLog l r) ;;
  ret r.

Definition getFuncValue (obj : Object World) : M World (FuncValue World) :=
  (if negb (Kind_eqb (Object_Kind obj) KFunc)
   then checkErr (Some (errors_New "registered object must be a func")) []
   else ret tt) ;;
  match obj with
  | OFunc funcValue =>
      (if (List.length (In funcValue) <? 1)%nat
          || negb (GoType_eqb (nth 0 (In funcValue) TContext) TContext)
       then checkErr (Some (errors_New "first argument must use context.ctx")) []
       else ret tt) ;;
      ret funcValue
  | _ => panic (PanicRuntime "reflect: NumIn of non-func type")
  end.

(** [f.Call(params)] for the action of step [i]. *)
Definition callAction (i : nat) (f : FuncValue World) (params : list Value)
    : M World (list Value) :=
  r <- onWorld (Call f params) ;;
  record (EvAction i f params r) ;;
  match r with
  | Returned res => ret res
  | Panicked p => panic p
  end.

(** [f.Call(params)] for the compensation registered at index [i]. *)
Definition callCompensate (i : nat) (f : FuncValue World) (params : list Value)
    : M World (list Value) :=
  r <- onWorld (Call f params) ;;
  record (EvCompensate i f params r) ;;
  match r with
  | Returned res => ret res
  | Panicked p => panic p
  end.

(** [s[i]] on a slice: a run-time panic out of range. *)
Definition index {A} (s : list A) (i : nat) : M World A :=
  match nth_error s i with
  | Some a => ret a
  | None => panic (PanicRuntime "index out of range")
  end.

Definition compensateStep (i : nat) : M World unit :=
  c <- getCoord ;;
  now <- onWorld time_Now ;;
  step <- index (Saga.steps (saga c)) i ;;
  e <- AppendLog (Log.mk (ExecutionID c) (Saga.Name (saga c)) now
                         LogTypeSagaStepCompensate (Some i) (Some (Step.Name step))) ;;
  checkErr e [] ;;
  let params := [] in
  let params := params ++ [reflect_ValueOf (ctx c)] in
  returned <- index (returnedValuesFromFunc c) i ;;
  let params := addParams params returned in
  compensateFunc <- index (toCompensate c) i ;;
  res <- callCompensate i compensateFunc params ;;
  e <- lift (isReturnError res) ;;
  match e with
  | Some e' => panic (PanicError e')
  | None => ret tt
  end.

(** The loop of [abort]: [for i := n - 1; i >= 0; i--]. *)
Fixpoint compensateFrom (n : nat) : M World unit :=
  match n with
  | O => ret tt
  | S i => compensateStep i ;; compensateFrom i
  end.

Definition abort : M World unit :=
  c <- getCoord ;;
  let stepsToCompensate := List.length (toCompensate c) in
  now <- onWorld time_Now ;;
  e <- AppendLog (Log.mk (ExecutionID c) (Saga.Name (saga c)) now
                         LogTypeSagaAbort (Some stepsToCompensate) None) ;;
  checkErr e [] ;;
  setCoord (set_aborted true) ;;
  compensateFrom stepsToCompensate.

Definition execStep (i : nat) : M World unit :=
  c <- getCoord ;;
  if aborted c then ret tt else
  now <- onWorld time_Now ;;
  step <- index (Saga.steps (saga c)) i ;;
  e <- AppendLog (Log.mk (ExecutionID c) (Saga.Name (saga c)) now
                         LogTypeSagaStepExec (Some i) (Some (Step.Name step))) ;;
  checkErr e [] ;;
  let f := Step.Func step in
  let compensate := Step.CompensateFunc step in
  let params := [reflect_ValueOf (ctx c)] in
  fv <- getFuncValue f ;;
  resp <- callAction i fv params ;;
  cv <- getFuncValue compensate ;;
  setCoord (fun c => set_toCompensate (toCompensate c ++ [cv]) c) ;;
  setCoord (fun c => set_returnedValuesFromFunc (returnedValuesFromFunc c ++ [resp]) c) ;;
  e <- lift (isReturnError resp) ;;
  match e with
  | Some e' => setCoord (set_err (Some e')) ;; abort
  | None => ret tt
  end.

(** The loop of [Play]: [n] iterations left, the next one at index [i]. *)
Fixpoint playFrom (n i : nat) : M World unit :=
  match n with
  | O => ret tt
  | S n' => execStep i ;; playFrom n' (S i)
  end.

Definition Play : M World Result :=
  c <- getCoord ;;
  now <- onWorld time_Now ;;
  e <- AppendLog (Log.mk (ExecutionID c) (Saga.Name (saga c)) now
                         LogTypeStartSaga None None) ;;
  checkErr e [] ;;
  playFrom (List.length (Saga.steps (saga c))) 0 ;;
  c <- getCoord ;;
  now <- onWorld time_Now ;;
  e <- AppendLog (Log.mk (ExecutionID c) (Saga.Name (saga c)) now
                         LogTypeSagaComplete None None) ;;
  checkErr e [] ;;
  c <- getCoord ;;
  ret (mkResult (err c)).

(** A run starts on a coordinator in a world, with nothing recorded. *)
Definition start (c : ExecutionCoordinator World) (w : World) : Machine World :=
  mkMachine c w [].

End Coordinator.


(** ** Random identifiers *)

(** [b[i] = x] on a slice; the index is in range wherever the code does
    it (the loop of [RandString] ranges over the indices of [b]). *)
Fixpoint update {A} (b : list A) (i : nat) (x : A) : list A :=
  match b, i with
  | [], _ => []
  | _ :: t, O => x :: t
  | h :: t, S i' => h :: update t i' x
  end.

Definition letters : list ascii :=
  list_ascii_of_string "abcdefghijklmnopqrstuvwxyzABCDEFGHIJKLMNOPQRSTUVWXYZ".

Section Random.

Context {World : Type}.

(** [rand.Intn(n)], a draw from the random source of the outside world. *)
Variable rand_Intn : nat -> World -> nat * World.

(** The loop of [RandString], [n] indices left from [i] on. *)
Fixpoint fillRandom (n i : nat) (b : list ascii) (w : World)
    : (PanicValue + list ascii) * World :=
  match n with
  | O => (inr b, w)
  | S n' =>
      let (k, w') := rand_Intn (List.length letters) w in
      match nth_error letters k with
      | Some r => fillRandom n' (S i) (update b i r) w'
      | None => (inl (PanicRuntime "index out of range"), w')
      end
  end.

Definition RandString (w : World) : (PanicValue + string) * World :=
  let b := repeat zero 10 in
  match fillRandom (List.length b) 0 b w with
  | (inr b', w') => (inr (string_of_list_ascii b'), w')
  | (inl p, w') => (inl p, w')
  end.

End Random.
(** * Vocabulary for statements about runs *)

(** A coordinator as a caller gets it: built by [NewCoordinator], with the
    exported field [ExecutionID] set to an identity of the caller's. *)
Definition fresh {World} (id : string) (ctx : option Context) (saga : Saga.t World)
    (logStore : Store World) : ExecutionCoordinator World :=
  set_ExecutionID id (NewCoordinator ctx saga logStore).

(** ** Weakest preconditions in the state-and-panic monad *)

Definition wp {World A} (c : M World A) (Q : A -> Machine World -> Prop)
    (E : PanicValue -> Machine World -> Prop) (m : Machine World) : Prop :=
  match c m with
  | Ret a m' => Q a m'
  | Panic v m' => E v m'
  end.

(** ** What a trace shows *)

Inductive Tag :=
| TagLog (t : LogType) (n : option nat)
| TagAction (i : nat)
| TagCompensate (i : nat).

Definition tagOf {World} (e : Event World) : Tag :=
  match e with
  | EvAppendLog l _ => TagLog (Log.Type_ l) (Log.StepNumber l)
  | EvAction i _ _ _ => TagAction i
  | EvCompensate i _ _ _ => TagCompensate i
  end.

Definition skeleton {World} (t : list (Event World)) : list Tag := map tagOf t.

(** The indices of the actions invoked, in the order of their calls. *)
Definition actionsOf {World} (t : list (Event World)) : list nat :=
  flat_map (fun e => match e with EvAction i _ _ _ => [i] | _ => [] end) t.

(** The indices of the compensations invoked, in the order of their calls. *)
Definition compensationsOf {World} (t : list (Event World)) : list nat :=
  flat_map (fun e => match e with EvCompensate i _ _ _ => [i] | _ => [] end) t.

(** The events given to the log store, in the order of the appends. *)
Definition logsOf {World} (t : list (Event World)) : list Log.t :=
  flat_map (fun e => match e with EvAppendLog l _ => [l] | _ => [] end) t.

Definition logTypesOf {World} (t : list (Event World)) : list LogType :=
  map Log.Type_ (logsOf t).

(** The same, read off a list of tags. *)
Definition tagActions (s : list Tag) : list nat :=
  flat_map (fun g => match g with TagAction i => [i] | _ => [] end) s.

Definition tagCompensations (s : list Tag) : list nat :=
  flat_map (fun g => match g with TagCompensate i => [i] | _ => [] end) s.

Definition tagLogTypes (s : list Tag) : list LogType :=
  flat_map (fun g => match g with TagLog t _ => [t] | _ => [] end) s.

(** The tags of the forward execution of steps [i .. i+n-1] and of the
    compensation of steps [n-1 .. 0]. *)
Definition forwardSkeleton (i n : nat) : list Tag :=
  flat_map (fun j => [TagLog LogTypeSagaStepExec (Some j); TagAction j]) (seq i n).

Definition compensationSkeleton (n : nat) : list Tag :=
  flat_map (fun j => [TagLog LogTypeSagaStepCompensate (Some j); TagCompensate j])
           (rev (seq 0 n)).

(** ** Shapes of callables and behaviour of collaborators *)

(** What [getFuncValue] accepts: a function whose first declared parameter
    is the context type. *)
Definition wellFormed {World} (obj : Object World) : bool :=
  match obj with
  | OFunc f =>
      match In f with
      | t :: _ => GoType_eqb t TContext
      | [] => false
      end
  | _ => false
  end.

(** The message of the configuration error [getFuncValue] raises on [obj]. *)
Definition configError {World} (obj : Object World) : string :=
  match obj with
  | OFunc _ => Sprintln [] (errors_New "first argument must use context.ctx")
  | _ => Sprintln [] (errors_New "registered object must be a func")
  end.

Definition storeNeverFaults {World} (store : Store World) : Prop :=
  forall l w, fst (store l w) = None.

(** [obj] is a well-formed callable that, called on the context alone,
    returns in every world, with results satisfying [P]. *)
Definition actionReturns {World} (cv : Value) (obj : Object World)
    (P : list Value -> Prop) : Prop :=
  exists f, obj = OFunc f /\ wellFormed obj = true
            /\ forall w, exists res, fst (Call f [cv] w) = Returned res /\ P res.

Definition succeeds {World} (cv : Value) (obj : Object World) : Prop :=
  actionReturns cv obj (fun res => isReturnError res = inr None).


(** [g], called in any world on the context [cv] followed by the results
    [res] less the last one, returns a nil error. *)
Definition returnsNilOn {World} (cv : Value) (g : FuncValue World)
    (res : list Value) : Prop :=
  forall w, exists res',
    fst (Call g (cv :: removelast res) w) = Returned res'
    /\ isReturnError res' = inr None.

(** The compensation of [step] passes [getFuncValue] and undoes the
    action: on the arguments the coordinator gives it (the context
    followed by whatever results, less the last one, the action of the
    step may return on the context) it returns a nil error. *)
Definition undoes {World} (cv : Value) (step : Step.t World) : Prop :=
  exists f g,
    Step.Func step = OFunc f
    /\ Step.CompensateFunc step = OFunc g
    /\ wellFormed (OFunc g) = true
    /\ forall w res, fst (Call f [cv] w) = Returned res -> returnsNilOn cv g res.


(** A step that goes forward: its action succeeds and its compensation
    passes [getFuncValue]. *)
Definition runs {World} (cv : Value) (step : Step.t World) : Prop :=
  succeeds cv (Step.Func step) /\ wellFormed (Step.CompensateFunc step) = true.


(** ** Invariants of traces *)

Definition sameConfig {World} (c c' : ExecutionCoordinator World) : Prop :=
  saga c' = saga c /\ ctx c' = ctx c /\ logStore c' = logStore c
  /\ ExecutionID c' = ExecutionID c.

(** No append recorded in [t] met a storage fault. *)
Definition NoFault {World} (t : list (Event World)) : Prop :=
  forall l e, ~ List.In (EvAppendLog l (Some e)) t.

(** No compensation recorded in [t] returned a non-nil error. *)
Definition NoCompensationError {World} (t : list (Event World)) : Prop :=
  forall i g ps res e,
    List.In (EvCompensate i g ps (Returned res)) t -> isReturnError res <> inr (Some e).

(** No event of type [LogTypeSagaComplete] was given to the store in [t]. *)
Definition NoComplete {World} (t : list (Event World)) : Prop :=
  ~ List.In LogTypeSagaComplete (logTypesOf t).

(** An event of forward progress: the append of a start or step event, or
    an action that returned with a nil trailing error. *)
Definition fwdEvent {World} (ev : Event World) : Prop :=
  match ev with
  | EvAppendLog l _ =>
      Log.Type_ l = LogTypeStartSaga \/ Log.Type_ l = LogTypeSagaStepExec
  | EvAction _ _ _ r => exists res, r = Returned res /\ isReturnError res = inr None
  | EvCompensate _ _ _ _ => False
  end.

(** An event that may follow the append of the abort event: the append of
    a compensation event or of the completion event, or the call of a
    compensation. *)
Definition afterAbortEvent {World} (ev : Event World) : Prop :=
  match ev with
  | EvAppendLog l _ =>
      Log.Type_ l = LogTypeSagaStepCompensate \/ Log.Type_ l = LogTypeSagaComplete
  | EvAction _ _ _ _ => False
  | EvCompensate _ _ _ _ => True
  end.

(** The trace of a run that aborted on the error [e]: forward progress,
    the action that returned [e], the append of the abort event carrying
    the number of actions invoked so far, then no action any more. *)
Definition AbortShape {World} (e : error) (t : list (Event World)) : Prop :=
  exists t1 k f ps res la r t2,
    t = t1 ++ EvAction k f ps (Returned res) :: EvAppendLog la r :: t2
    /\ isReturnError res = inr (Some e)
    /\ Forall fwdEvent t1
    /\ Log.Type_ la = LogTypeSagaAbort
    /\ Log.StepNumber la = Some (S (List.length (actionsOf t1)))
    /\ Forall afterAbortEvent t2.

(** Every compensation recorded in [t] was called on the context followed
    by the results, less the last, that the action of the same step
    returned earlier in [t], and is the callable registered in that step. *)
Definition Justified {World} (cv : Value) (steps : list (Step.t World))
    (t : list (Event World)) : Prop :=
  forall t1 t2 i g ps r,
    t = t1 ++ EvCompensate i g ps r :: t2 ->
    exists f res step,
      List.In (EvAction i f [cv] (Returned res)) t1
      /\ ps = cv :: removelast res
      /\ nth_error steps i = Some step
      /\ Step.Func step = OFunc f
      /\ Step.CompensateFunc step = OFunc g.

(** No compensation was called in [t]. *)
Definition NoCompensation {World} (t : list (Event World)) : Prop :=
  forall i g ps r, ~ List.In (EvCompensate i g ps r) t.

(** The results and the compensations the coordinator [c] holds at index
    [j] are those of the call of the action of step [j] recorded in [t]
    and the compensation registered in that step. *)
Definition Linked {World} (cv : Value) (steps : list (Step.t World))
    (c : ExecutionCoordinator World) (t : list (Event World)) : Prop :=
  forall j res g,
    nth_error (returnedValuesFromFunc c) j = Some res ->
    nth_error (toCompensate c) j = Some g ->
    exists f step,
      List.In (EvAction j f [cv] (Returned res)) t
      /\ nth_error steps j = Some step
      /\ Step.Func step = OFunc f
      /\ Step.CompensateFunc step = OFunc g.

(** The coordinator [c] reads the context value [cv] and the steps
    [steps]. *)
Definition configured {World} (cv : Value) (steps : list (Step.t World))
    (c : ExecutionCoordinator World) : Prop :=
  reflect_ValueOf (ctx c) = cv /\ Saga.steps (saga c) = steps.

(** A machine in forward progress: nothing failed so far. *)
Definition Forwarding {World} (cv : Value) (steps : list (Step.t World))
    (m : Machine World) : Prop :=
  configured cv steps (coord m)
  /\ aborted (coord m) = false
  /\ err (coord m) = None
  /\ Forall fwdEvent (trace m)
  /\ actionsOf (trace m) = seq 0 (List.length (returnedValuesFromFunc (coord m)))
  /\ List.length (toCompensate (coord m))
     = List.length (returnedValuesFromFunc (coord m))
  /\ Linked cv steps (coord m) (trace m).

(** A machine that is compensating, or has compensated, after the error
    [e]. *)
Definition Compensating {World} (cv : Value) (steps : list (Step.t World))
    (e : error) (m : Machine World) : Prop :=
  configured cv steps (coord m)
  /\ err (coord m) = Some e
  /\ AbortShape e (trace m)
  /\ Justified cv steps (trace m)
  /\ actionsOf (trace m) = seq 0 (List.length (returnedValuesFromFunc (coord m)))
  /\ Linked cv steps (coord m) (trace m).

(** A machine between two iterations of the loop of [Play]. *)
Definition Playing {World} (cv : Value) (steps : list (Step.t World))
    (m : Machine World) : Prop :=
  Forwarding cv steps m
  \/ (aborted (coord m) = true /\ exists e, Compensating cv steps e m).

(** A machine on which the run halted. *)
Definition Halted {World} (cv : Value) (steps : list (Step.t World))
    (m : Machine World) : Prop :=
  Justified cv steps (trace m)
  /\ (forall e, err (coord m) = Some e -> AbortShape e (trace m))
  /\ (exists n, actionsOf (trace m) = seq 0 n).

(** A machine from which [Play] returned the Result [r]. *)
Definition Played {World} (cv : Value) (steps : list (Step.t World))
    (r : Result) (m : Machine World) : Prop :=
  Err r = err (coord m)
  /\ Justified cv steps (trace m)
  /\ (exists n, actionsOf (trace m) = seq 0 n)
  /\ match Err r with
     | None =>
         exists t l,
           trace m = t ++ [EvAppendLog l None]
           /\ Log.Type_ l = LogTypeSagaComplete
           /\ Forall fwdEvent t
     | Some e => AbortShape e (trace m)
     end.

(** The machine in which [execStep] is about to call [abort]. *)
Definition AboutToAbort {World} (cv : Value) (steps : list (Step.t World))
    (e : error) (m : Machine World) : Prop :=
  configured cv steps (coord m)
  /\ err (coord m) = Some e
  /\ Linked cv steps (coord m) (trace m)
  /\ actionsOf (trace m) = seq 0 (List.length (returnedValuesFromFunc (coord m)))
  /\ List.length (toCompensate (coord m))
     = List.length (returnedValuesFromFunc (coord m))
  /\ exists t1 k f ps res,
       trace m = t1 ++ [EvAction k f ps (Returned res)]
       /\ isReturnError res = inr (Some e)
       /\ Forall fwdEvent t1.

(** Two coordinators that differ at most by the flag [aborted]. *)
Definition agree {World} (c c' : ExecutionCoordinator World) : Prop :=
  ctx c' = ctx c /\ saga c' = saga c /\ err c' = err c
  /\ returnedValuesFromFunc c' = returnedValuesFromFunc c
  /\ toCompensate c' = toCompensate c.

(** ** The audit trail *)

(** The event [l] is stamped by the coordinator [c]: it carries its
    execution identity and the name of its saga; a step event or a
    compensation event carries the index and the name of a step of the
    saga; the abort event carries a number and no name; the start and
    completion events carry neither. *)
Definition wellStamped {World} (c : ExecutionCoordinator World) (l : Log.t) : Prop :=
  Log.ExecutionID l = ExecutionID c
  /\ Log.Name l = Saga.Name (saga c)
  /\ match Log.Type_ l with
     | LogTypeSagaStepExec | LogTypeSagaStepCompensate =>
         exists i step,
           Log.StepNumber l = Some i
           /\ nth_error (Saga.steps (saga c)) i = Some step
           /\ Log.StepName l = Some (Step.Name step)
     | LogTypeSagaAbort =>
         Log.StepName l = None /\ exists n, Log.StepNumber l = Some n
     | LogTypeStartSaga | LogTypeSagaComplete =>
         Log.StepNumber l = None /\ Log.StepName l = None
     end.

(** A callable that passed [getFuncValue]. *)
Definition validated {World} (f : FuncValue World) : Prop :=
  wellFormed (OFunc f) = true.

(** What every call recorded in a run of the coordinator [c] satisfies:
    an append is stamped; an action is the validated callable registered
    in its step and is called on the context alone; a compensation is a
    validated callable. *)
Definition audited {World} (c : ExecutionCoordinator World) (ev : Event World) : Prop :=
  match ev with
  | EvAppendLog l _ => wellStamped c l
  | EvAction i f ps _ =>
      ps = [reflect_ValueOf (ctx c)]
      /\ validated f
      /\ exists step,
           nth_error (Saga.steps (saga c)) i = Some step /\ Step.Func step = OFunc f
  | EvCompensate _ g _ _ => validated g
  end.

(** Every call of a callable recorded in [t] comes right after the
    successful append of the event that announces it: a step event with
    the index of the action, a compensation event with the index of the
    compensation. *)
Definition WriteAhead {World} (t : list (Event World)) : Prop :=
  forall t1 t2 ev,
    t = t1 ++ ev :: t2 ->
    match ev with
    | EvAppendLog _ _ => True
    | EvAction i _ _ _ =>
        exists t0 l,
          t1 = t0 ++ [EvAppendLog l None]
          /\ Log.Type_ l = LogTypeSagaStepExec /\ Log.StepNumber l = Some i
    | EvCompensate i _ _ _ =>
        exists t0 l,
          t1 = t0 ++ [EvAppendLog l None]
          /\ Log.Type_ l = LogTypeSagaStepCompensate /\ Log.StepNumber l = Some i
    end.

(** The invariant of the audit trail of a run of the coordinator [c0]. *)
Definition Audited {World} (c0 : ExecutionCoordinator World) (m : Machine World) : Prop :=
  sameConfig c0 (coord m)
  /\ Forall validated (toCompensate (coord m))
  /\ Forall (audited c0) (trace m)
  /\ WriteAhead (trace m).

(** ** The causes of a fatal halt *)

(** Why a run that left the trace [t] panicked with [v]: an append that
    returned a fault; a callable of a step of the saga that
    [getFuncValue] refuses; a callable that panicked itself; results
    whose last value cannot be read as an error; a compensation that
    returned an error. *)
Definition Caused {World} (steps : list (Step.t World)) (v : PanicValue)
    (t : list (Event World)) : Prop :=
  (exists t0 l e,
      t = t0 ++ [EvAppendLog l (Some e)] /\ v = PanicString (Sprintln [] e))
  \/ (exists step obj,
         List.In step steps
         /\ (obj = Step.Func step \/ obj = Step.CompensateFunc step)
         /\ wellFormed obj = false
         /\ v = PanicString (configError obj))
  \/ (exists t0 i f ps,
         t = t0 ++ [EvAction i f ps (Panicked v)]
         \/ t = t0 ++ [EvCompensate i f ps (Panicked v)])
  \/ (exists t0 i f ps res,
         (t = t0 ++ [EvAction i f ps (Returned res)]
          \/ t = t0 ++ [EvCompensate i f ps (Returned res)])
         /\ isReturnError res = inl v)
  \/ (exists t0 i g ps res e,
         t = t0 ++ [EvCompensate i g ps (Returned res)]
         /\ isReturnError res = inr (Some e)
         /\ v = PanicError e).

(** ** The answers of the collaborators *)

(** The answer recorded in the event [ev] is one that the collaborator
    gives in some world: the store [store] to the append, the callable
    to the call. *)
Definition answered {World} (store : Store World) (ev : Event World) : Prop :=
  match ev with
  | EvAppendLog l r => exists w, fst (store l w) = r
  | EvAction _ f ps r => exists w, fst (Call f ps w) = r
  | EvCompensate _ f ps r => exists w, fst (Call f ps w) = r
  end.

Definition Answered {World} (store : Store World) (m : Machine World) : Prop :=
  logStore (coord m) = store /\ Forall (answered store) (trace m).

(** A step whose callables behave: both pass [getFuncValue]; the action,
    called on the context alone, returns in every world results whose
    last value reads as an error or as nil; the compensation, called on
    the context followed by the results of the action less the last one,
    returns a nil error. *)
Definition behaves {World} (cv : Value) (step : Step.t World) : Prop :=
  (exists f,
      Step.Func step = OFunc f
      /\ wellFormed (OFunc f) = true
      /\ forall w, exists res oe,
           fst (Call f [cv] w) = Returned res /\ isReturnError res = inr oe)
  /\ undoes cv step.

(** ** Postconditions of the functions *)

(** The events appended inside the loop of [Play]. *)
Definition innerLog (l : Log.t) : Prop :=
  Log.Type_ l = LogTypeSagaStepExec
  \/ Log.Type_ l = LogTypeSagaAbort
  \/ Log.Type_ l = LogTypeSagaStepCompensate.

(** The trace of a run halted by a storage fault, or by something else. *)
Definition haltedOnFault {World} (v : PanicValue) (t : list (Event World)) : Prop :=
  NoFault t
  \/ exists t' l e,
       t = t' ++ [EvAppendLog l (Some e)]
       /\ NoFault t'
       /\ v = PanicString (Sprintln [] e).

(** No event of type [LogTypeSagaComplete] was stored: every append of
    such an event recorded in [t] met a fault. *)
Definition nothingCompleted {World} (t : list (Event World)) : Prop :=
  forall l, List.In (EvAppendLog l None) t -> Log.Type_ l <> LogTypeSagaComplete.

(** The postcondition of a panic that cannot happen. *)
Definition never {World} (v : PanicValue) (m : Machine World) : Prop := False.

(** The machine after step [i] of the saga went forward from [m]: the
    results held are results the action returns on the context. *)
Definition stepped {World} (cv : Value) (i : nat) (step : Step.t World)
    (m m' : Machine World) : Prop :=
  exists l f g res w',
    Log.Type_ l = LogTypeSagaStepExec
    /\ Log.StepNumber l = Some i
    /\ Step.Func step = OFunc f
    /\ Step.CompensateFunc step = OFunc g
    /\ isReturnError res = inr None
    /\ (exists w0, fst (Call f [cv] w0) = Returned res)
    /\ m' = mkMachine
              (set_returnedValuesFromFunc
                 (returnedValuesFromFunc (coord m) ++ [res])
                 (set_toCompensate (toCompensate (coord m) ++ [g]) (coord m)))
              w'
              (trace m ++ [EvAppendLog l None; EvAction i f [cv] (Returned res)]).

(** The machine after the steps [good], the first of them at index [i],
    went forward from [m]. *)
Definition progressed {World} (i : nat) (good : list (Step.t World))
    (m m' : Machine World) : Prop :=
  sameConfig (coord m) (coord m')
  /\ aborted (coord m') = false
  /\ err (coord m') = err (coord m)
  /\ (exists gs rs,
        toCompensate (coord m') = toCompensate (coord m) ++ gs
        /\ returnedValuesFromFunc (coord m') = returnedValuesFromFunc (coord m) ++ rs
        /\ Forall2 (fun g step => Step.CompensateFunc step = OFunc g) gs good
        /\ List.length rs = List.length good)
  /\ skeleton (trace m') = skeleton (trace m) ++ forwardSkeleton i (List.length good).

(** What a run halted at step [k] by a configuration error of [obj]
    leaves: the panic, the tags of the trace, and a coordinator that
    recorded no error. *)
Definition haltedAtStep {World} (obj : Object World) (k : nat) (tail : list Tag)
    (v : PanicValue) (m' : Machine World) : Prop :=
  v = PanicString (configError obj)
  /\ skeleton (trace m')
     = TagLog LogTypeStartSaga None :: forwardSkeleton 0 k ++ tail
  /\ err (coord m') = None
  /\ aborted (coord m') = false
  /\ List.length (toCompensate (coord m')) = k.

(** The trace of a run halted by the error of a compensation, or by
    something else. *)
Definition haltedOnCompensation {World} (v : PanicValue)
    (t : list (Event World)) : Prop :=
  NoCompensationError t
  \/ exists t' i g ps res e,
       t = t' ++ [EvCompensate i g ps (Returned res)]
       /\ NoCompensationError t'
       /\ isReturnError res = inr (Some e)
       /\ v = PanicError e.

(** ** A world for examples: an in-memory store *)

Module Example.

(** The world is the content of the store; the clock counts the events
    stored. *)
Definition World := list Log.t.

Definition memStore : Store World := fun l w => (None, w ++ [l]).

(** A store that refuses the events of type [k]. *)
Definition faultyOn (k : LogType) : Store World :=
  fun l w =>
    if LogType_eqb (Log.Type_ l) k
    then (Some (errors_New "disk full"), w)
    else (None, w ++ [l]).

Definition clock (w : World) : Z * World := (Z.of_nat (List.length w), w).

Definition background : option Context := Some 0.

(** A Go function as [reflect.Value.Call] runs it: the call panics unless
    it is given as many arguments as the function has parameters. *)
Definition goFunc (ins : list GoType)
    (body : list Value -> World -> list Value * World) : FuncValue World :=
  {| In := ins;
     Call := fun ps w =>
       match Nat.compare (List.length ps) (List.length ins) with
       | Lt => (Panicked (PanicRuntime "reflect: Call with too few input arguments"), w)
       | Gt => (Panicked (PanicRuntime "reflect: Call with too many input arguments"), w)
       | Eq => let (res, w') := body ps w in (Returned res, w')
       end |}.

(** [func(ctx) (int, error)] returning [(42, nil)]. *)
Definition reserve : FuncValue World :=
  goFunc [TContext] (fun _ w => ([VInt 42; VError None], w)).

(** [func(ctx, int) error] returning nil. *)
Definition release : FuncValue World :=
  goFunc [TContext; TInt] (fun _ w => ([VError None], w)).

(** [func(ctx) error] returning an error. *)
Definition charge : FuncValue World :=
  goFunc [TContext] (fun _ w => ([VError (Some (errors_New "card declined"))], w)).

(** [func(ctx) error] returning nil. *)
Definition refund : FuncValue World :=
  goFunc [TContext] (fun _ w => ([VError None], w)).

(** [func(ctx, int) error] returning an error. *)
Definition stuck : FuncValue World :=
  goFunc [TContext; TInt] (fun _ w => ([VError (Some (errors_New "cannot release"))], w)).

(** [func(int) error]: the first parameter is not the context. *)
Definition noContext : FuncValue World :=
  goFunc [TInt] (fun _ w => ([VError None], w)).

Definition stepReserve := Step.mk "reserve" (OFunc reserve) (OFunc release).
Definition stepCharge := Step.mk "charge" (OFunc charge) (OFunc refund).
Definition stepShip := Step.mk "ship" (OFunc refund) (OFunc refund).

Definition booking : Saga.t World :=
  Saga.mk "booking" [stepReserve; stepCharge; stepShip].


(** A step whose action is a string, not a function. *)
Definition stepNotify : Step.t World :=
  Step.mk "notify" (OData (VString "notify")) (OFunc refund).

(** A step whose action does not take the context first. *)
Definition stepAudit : Step.t World :=
  Step.mk "audit" (OFunc noContext) (OFunc refund).

(** A step whose compensation does not take the context first. *)
Definition stepInvoice : Step.t World :=
  Step.mk "invoice" (OFunc refund) (OFunc noContext).

(** A step whose compensation returns an error. *)
Definition stepHold : Step.t World :=
  Step.mk "hold" (OFunc reserve) (OFunc stuck).

Definition unregistered : Saga.t World :=
  Saga.mk "unregistered" [stepReserve; stepNotify; stepShip].

Definition miswired : Saga.t World :=
  Saga.mk "miswired" [stepReserve; stepInvoice; stepShip].

Definition jammed : Saga.t World :=
  Saga.mk "jammed" [stepHold; stepCharge].

Definition run (s : Saga.t World) (store : Store World) : Outcome World Result :=
  Play clock (start (fresh "run-1" background s store) []).

End Example.

(** * Reasoning about runs *)

(** ** Weakest preconditions in the state-and-panic monad *)

Section WP.

Context {World : Type}.

Lemma wp_ret {A} (a : A) Q E (m : Machine World) : Q a m -> wp (ret a) Q E m.
Proof. exact (fun H => H). Qed.

Lemma wp_panic {A} (v : PanicValue) (Q : A -> Machine World -> Prop) E
    (m : Machine World) :
  E v m -> wp (panic v) Q E m.
Proof. exact (fun H => H). Qed.

Lemma wp_bind {A B} (c : M World A) (k : A -> M World B) Q E m :
  wp c (fun a m' => wp (k a) Q E m') E m -> wp (bind c k) Q E m.
Proof. unfold wp, bind. destruct (c m); auto. Qed.

Lemma wp_mono {A} (c : M World A) (Q Q' : A -> Machine World -> Prop)
    (E E' : PanicValue -> Machine World -> Prop) m :
  wp c Q E m ->
  (forall a m', Q a m' -> Q' a m') ->
  (forall v m', E v m' -> E' v m') ->
  wp c Q' E' m.
Proof. unfold wp. destruct (c m); auto. Qed.

Lemma wp_getCoord Q E (m : Machine World) :
  Q (coord m) m -> wp getCoord Q E m.
Proof. exact (fun H => H). Qed.

Lemma wp_setCoord f Q E (m : Machine World) :
  Q tt (mkMachine (f (coord m)) (world m) (trace m)) -> wp (setCoord f) Q E m.
Proof. exact (fun H => H). Qed.

Lemma wp_record e Q E (m : Machine World) :
  Q tt (mkMachine (coord m) (world m) (trace m ++ [e])) -> wp (record e) Q E m.
Proof. exact (fun H => H). Qed.

Lemma wp_onWorld {A} (f : World -> A * World) Q E (m : Machine World) :
  (forall a w, f (world m) = (a, w) -> Q a (mkMachine (coord m) w (trace m))) ->
  wp (onWorld f) Q E m.
Proof. unfold wp, onWorld. intros H. destruct (f (world m)) eqn:Hf. auto. Qed.

Lemma wp_lift {A} (r : PanicValue + A) Q E (m : Machine World) :
  match r with inl p => E p m | inr a => Q a m end -> wp (lift r) Q E m.
Proof. destruct r; exact (fun H => H). Qed.

Lemma wp_checkErr e msg Q E (m : Machine World) :
  match e with
  | Some e' => E (PanicString (Sprintln msg e')) m
  | None => Q tt m
  end -> wp (checkErr e msg) Q E m.
Proof. destruct e; exact (fun H => H). Qed.

Lemma wp_index {A} (s : list A) i Q E (m : Machine World) :
  match nth_error s i with
  | Some a => Q a m
  | None => E (PanicRuntime "index out of range") m
  end -> wp (index s i) Q E m.
Proof. unfold index. destruct (nth_error s i); exact (fun H => H). Qed.

Lemma wp_both {A} (c : M World A) Q1 Q2 E1 E2 (m : Machine World) :
  wp c Q1 E1 m -> wp c Q2 E2 m ->
  wp c (fun a m' => Q1 a m' /\ Q2 a m') (fun v m' => E1 v m' /\ E2 v m') m.
Proof. unfold wp. destruct (c m); auto. Qed.

(** The outcome of a computation from what its [wp] gives. *)
Lemma wp_final {A} (c : M World A) (R : Machine World -> Prop) m :
  wp c (fun _ m' => R m') (fun _ m' => R m') m -> R (final (c m)).
Proof. unfold wp. destruct (c m); auto. Qed.

End WP.

Ltac wp_prim :=
  lazymatch goal with
  | |- wp (bind _ _) _ _ _ => apply wp_bind
  | |- wp (ret _) _ _ _ => apply wp_ret
  | |- wp (panic _) _ _ _ => apply wp_panic
  | |- wp getCoord _ _ _ => apply wp_getCoord
  | |- wp (setCoord _) _ _ _ => apply wp_setCoord
  | |- wp (record _) _ _ _ => apply wp_record
  | |- wp (lift _) _ _ _ => apply wp_lift
  | |- wp (checkErr _ _) _ _ _ => apply wp_checkErr
  | |- wp (index _ _) _ _ _ => apply wp_index
  | |- wp (onWorld _) _ _ _ => apply wp_onWorld; intros ? ? ?
  | |- wp (match ?x with _ => _ end) _ _ _ =>
      first [ progress cbn beta iota | destruct x eqn:? ]
  | |- match ?x with _ => _ end =>
      first [ progress cbn beta iota | destruct x eqn:? ]
  end.

Ltac wp_go := repeat (wp_prim; cbn beta iota delta [coord world trace]).

(** ** The arguments of a compensation *)

Lemma addParams_removelast (values returned : list Value) :
  addParams values returned = values ++ removelast returned.
Proof.
  unfold addParams. destruct (1 <? List.length returned)%nat eqn:Hlen.
  - rewrite removelast_firstn_len. f_equal. f_equal. lia.
  - apply Nat.ltb_ge in Hlen.
    destruct returned as [|x [|y l]]; simpl in *; try lia;
      rewrite app_nil_r; reflexivity.
Qed.


(** ** The coordinator never writes its configuration *)

Section Frame.

Context {World : Type}.
Variable time_Now : World -> Z * World.
Variable c0 : ExecutionCoordinator World.

Let keeps (m : Machine World) : Prop := sameConfig c0 (coord m).

Ltac frame_done := solve [ unfold keeps, sameConfig in *; simpl; intuition congruence ].

Lemma sameConfig_refl (c : ExecutionCoordinator World) : sameConfig c c.
Proof. repeat split. Qed.

Lemma compensateStep_frame i m :
  keeps m -> wp (compensateStep time_Now i) (fun _ => keeps) (fun _ => keeps) m.
Proof.
  intros H. unfold compensateStep, AppendLog, callCompensate.
  wp_go; frame_done.
Qed.

Lemma compensateFrom_frame n : forall m,
  keeps m -> wp (compensateFrom time_Now n) (fun _ => keeps) (fun _ => keeps) m.
Proof.
  induction n as [|n IH]; intros m H; simpl.
  - apply wp_ret. exact H.
  - apply wp_bind.
    eapply wp_mono; [ apply compensateStep_frame; exact H | | auto ].
    intros ? m' H'. apply IH. exact H'.
Qed.

Lemma abort_frame m :
  keeps m -> wp (abort time_Now) (fun _ => keeps) (fun _ => keeps) m.
Proof.
  intros H. unfold abort, AppendLog.
  wp_go; try frame_done.
  apply compensateFrom_frame. frame_done.
Qed.

Lemma execStep_frame i m :
  keeps m -> wp (execStep time_Now i) (fun _ => keeps) (fun _ => keeps) m.
Proof.
  intros H. unfold execStep, AppendLog, getFuncValue, callAction.
  wp_go; try frame_done.
  all: apply abort_frame; frame_done.
Qed.

Lemma playFrom_frame n : forall i m,
  keeps m -> wp (playFrom time_Now n i) (fun _ => keeps) (fun _ => keeps) m.
Proof.
  induction n as [|n IH]; intros i m H; simpl.
  - apply wp_ret. exact H.
  - apply wp_bind.
    eapply wp_mono; [ apply execStep_frame; exact H | | auto ].
    intros ? m' H'. apply IH. exact H'.
Qed.

Lemma Play_frame m :
  keeps m -> wp (Play time_Now) (fun _ => keeps) (fun _ => keeps) m.
Proof.
  intros H. unfold Play, AppendLog.
  wp_go; try frame_done.
  eapply wp_mono; [ apply playFrom_frame; frame_done | | auto ].
  intros ? m' H'. wp_go; frame_done.
Qed.

End Frame.

(** C9. [Play] never writes the saga it was constructed with: whatever the
    coordinator, the world and the outcome of the run (a Result or a
    fatal halt), the saga held by the coordinator after the run is the one
    it held before, with the same name, the same steps in the same order
    and the same callables in each; so a coordinator built on the saga
    after the run behaves as one built on the saga before the run. *)
Theorem Play_never_mutates_saga {World : Type} (time_Now : World -> Z * World)
    (c : ExecutionCoordinator World) (w : World) :
  let after := coord (final (Play time_Now (start c w))) in
  saga after = saga c
  /\ Saga.Name (saga after) = Saga.Name (saga c)
  /\ Saga.steps (saga after) = Saga.steps (saga c)
  /\ map Step.Func (Saga.steps (saga after)) = map Step.Func (Saga.steps (saga c))
  /\ map Step.CompensateFunc (Saga.steps (saga after))
     = map Step.CompensateFunc (Saga.steps (saga c))
  /\ (forall id ctx store w',
        Play time_Now (start (fresh id ctx (saga after) store) w')
        = Play time_Now (start (fresh id ctx (saga c) store) w')).
Proof.
  intros after.
  assert (H : saga after = saga c).
  { unfold after.
    apply (wp_final (Play time_Now) (fun m' => saga (coord m') = saga c)).
    eapply wp_mono.
    - apply (Play_frame time_Now c). apply sameConfig_refl.
    - intros ? m' Hk. apply Hk.
    - intros ? m' Hk. apply Hk. }
  rewrite H. repeat split; reflexivity.
Qed.

(** ** Invariants of the trace alone

    A property [G] of traces kept by every event of a run that goes on,
    with a property [B] of the trace and of the value of the panic
    when the run halts. *)

Section TraceInvariant.

Context {World : Type}.
Variable time_Now : World -> Z * World.
Variable G : list (Event World) -> Prop.
Variable B : PanicValue -> list (Event World) -> Prop.

Hypothesis G_log : forall t l,
  innerLog l -> G t -> G (t ++ [EvAppendLog l None]).
Hypothesis B_log : forall t l e,
  innerLog l -> G t -> B (PanicString (Sprintln [] e)) (t ++ [EvAppendLog l (Some e)]).
Hypothesis G_action : forall t i f ps res,
  G t -> G (t ++ [EvAction i f ps (Returned res)]).
Hypothesis B_action : forall t i f ps p,
  G t -> B p (t ++ [EvAction i f ps (Panicked p)]).
Hypothesis G_compensate : forall t i f ps res,
  isReturnError res = inr None -> G t -> G (t ++ [EvCompensate i f ps (Returned res)]).
Hypothesis B_compensate_error : forall t i f ps res e,
  isReturnError res = inr (Some e) ->
  G t -> B (PanicError e) (t ++ [EvCompensate i f ps (Returned res)]).
Hypothesis B_compensate_ill : forall t i f ps res p,
  isReturnError res = inl p ->
  G t -> B p (t ++ [EvCompensate i f ps (Returned res)]).
Hypothesis B_compensate_panic : forall t i f ps p,
  G t -> B p (t ++ [EvCompensate i f ps (Panicked p)]).
Hypothesis B_quiet : forall t v, G t -> B v t.

Let good (m : Machine World) : Prop := G (trace m).
Let bad (v : PanicValue) (m : Machine World) : Prop := B v (trace m).

Ltac inner := unfold innerLog; simpl; auto.

Ltac peel :=
  repeat first
    [ assumption
    | apply G_log; [inner | ]
    | apply G_action
    | apply G_compensate; [assumption | ] ].

Ltac trace_done :=
  unfold good, bad in *; simpl;
  first
    [ solve [peel]
    | apply B_log; [inner | solve [peel]]
    | apply B_action; solve [peel]
    | apply B_compensate_error; [assumption | solve [peel]]
    | apply B_compensate_ill; [assumption | solve [peel]]
    | apply B_compensate_panic; solve [peel]
    | apply B_quiet; solve [peel] ].

Lemma compensateStep_trace i m :
  good m -> wp (compensateStep time_Now i) (fun _ => good) bad m.
Proof.
  intros H. unfold compensateStep, AppendLog, callCompensate.
  wp_go; trace_done.
Qed.

Lemma compensateFrom_trace n : forall m,
  good m -> wp (compensateFrom time_Now n) (fun _ => good) bad m.
Proof.
  induction n as [|n IH]; intros m H; simpl.
  - apply wp_ret. exact H.
  - apply wp_bind.
    eapply wp_mono; [ apply compensateStep_trace; exact H | | auto ].
    intros ? m' H'. apply IH. exact H'.
Qed.

Lemma abort_trace m :
  good m -> wp (abort time_Now) (fun _ => good) bad m.
Proof.
  intros H. unfold abort, AppendLog.
  wp_go; try trace_done.
  apply compensateFrom_trace. trace_done.
Qed.

Lemma execStep_trace i m :
  good m -> wp (execStep time_Now i) (fun _ => good) bad m.
Proof.
  intros H. unfold execStep, AppendLog, getFuncValue, callAction.
  wp_go; try trace_done.
  all: apply abort_trace; trace_done.
Qed.

Lemma playFrom_trace n : forall i m,
  good m -> wp (playFrom time_Now n i) (fun _ => good) bad m.
Proof.
  induction n as [|n IH]; intros i m H; simpl.
  - apply wp_ret. exact H.
  - apply wp_bind.
    eapply wp_mono; [ apply execStep_trace; exact H | | auto ].
    intros ? m' H'. apply IH. exact H'.
Qed.

End TraceInvariant.

(** ** Storage faults *)

Section StorageFaults.

Context {World : Type}.
Variable time_Now : World -> Z * World.

Lemma NoFault_nil : NoFault (@nil (Event World)).
Proof. intros l e H. inversion H. Qed.

Lemma NoFault_snoc (t : list (Event World)) ev :
  NoFault t -> (forall l e, ev <> EvAppendLog l (Some e)) -> NoFault (t ++ [ev]).
Proof.
  intros Ht Hev l e Hin. apply in_app_or in Hin. destruct Hin as [Hin | [Heq | []]].
  - exact (Ht l e Hin).
  - exact (Hev l e Heq).
Qed.

Lemma haltedOnFault_here (t : list (Event World)) l e :
  NoFault t -> haltedOnFault (PanicString (Sprintln [] e)) (t ++ [EvAppendLog l (Some e)]).
Proof. intros H. right. exists t, l, e. auto. Qed.

Ltac fault_free := apply NoFault_snoc; [ assumption | intros; discriminate ].

Lemma playFrom_faults n i m :
  NoFault (trace m) ->
  wp (playFrom time_Now n i) (fun _ m' => NoFault (trace m'))
     (fun v m' => haltedOnFault v (trace m')) m.
Proof.
  apply (playFrom_trace time_Now NoFault haltedOnFault); intros;
    try fault_free; try (apply haltedOnFault_here; assumption);
    left; try fault_free; assumption.
Qed.

Lemma Play_faults m :
  NoFault (trace m) ->
  wp (Play time_Now) (fun _ m' => NoFault (trace m'))
     (fun v m' => haltedOnFault v (trace m')) m.
Proof.
  intros H. unfold Play, AppendLog. wp_go.
  - apply haltedOnFault_here. assumption.
  - eapply wp_mono; [ apply playFrom_faults; simpl; fault_free | | auto ].
    intros ? m' H'. cbn beta. wp_go.
    + apply haltedOnFault_here. assumption.
    + fault_free.
Qed.

End StorageFaults.

(** C6. In every run in which an append to the log store returns a non-nil
    error, whatever the kind of the event appended, the coordinator
    halts: [Play] returns no Result, it panics with the string that
    [checkErr] builds from that error, and the faulty append is the last
    call the coordinator makes (the run does not go on after it). *)
Theorem storage_fault_is_fatal {World : Type} (time_Now : World -> Z * World)
    (c : ExecutionCoordinator World) (w : World) (l : Log.t) (e : error) :
  List.In (EvAppendLog l (Some e)) (trace (final (Play time_Now (start c w)))) ->
  exists t m',
    Play time_Now (start c w) = Panic (PanicString (Sprintln [] e)) m'
    /\ trace m' = t ++ [EvAppendLog l (Some e)]
    /\ NoFault t.
Proof.
  intros Hin.
  pose proof (Play_faults time_Now (start c w) NoFault_nil) as H.
  unfold wp in H.
  destruct (Play time_Now (start c w)) as [r m' | v m']; simpl in Hin.
  - exfalso. exact (H l e Hin).
  - destruct H as [H | (t & l' & e' & Ht & Hnf & Hv)].
    + exfalso. exact (H l e Hin).
    + rewrite Ht in Hin. apply in_app_or in Hin.
      destruct Hin as [Hin | [Heq | []]].
      * exfalso. exact (Hnf l e Hin).
      * inversion Heq; subst. exists t, m'. auto.
Qed.

(** A store that refuses the compensation events halts the booking saga. *)
Lemma storage_fault_is_fatal_witness :
  exists l t m',
    Play Example.clock
      (start (fresh "run-1" Example.background Example.booking
                    (Example.faultyOn LogTypeSagaStepCompensate)) [])
    = Panic (PanicString (Sprintln [] (errors_New "disk full"))) m'
    /\ trace m' = t ++ [EvAppendLog l (Some (errors_New "disk full"))]
    /\ Log.Type_ l = LogTypeSagaStepCompensate.
Proof.
  eexists (Log.mk "run-1" "booking" 4 LogTypeSagaStepCompensate (Some 1) (Some "charge")).
  destruct (storage_fault_is_fatal Example.clock
              (fresh "run-1" Example.background Example.booking
                     (Example.faultyOn LogTypeSagaStepCompensate)) []
              (Log.mk "run-1" "booking" 4 LogTypeSagaStepCompensate (Some 1) (Some "charge"))
              (errors_New "disk full"))
    as (t & m' & HP & Ht & _).
  - vm_compute. auto 20.
  - exists t, m'. auto.
Defined.

(** The fault is fatal on each of the five kinds of event: the booking
    saga on a store that refuses the events of kind [k] halts on an append
    of that kind. *)
Example fault_on_each_kind (k : LogType) :
  match Example.run Example.booking (Example.faultyOn k) with
  | Panic v m' =>
      v = PanicString (Sprintln [] (errors_New "disk full"))
      /\ exists n, last (skeleton (trace m')) (TagAction 0) = TagLog k n
  | Ret _ _ => False
  end.
Proof.
  destruct k; vm_compute; (split; [reflexivity | eexists; reflexivity]).
Qed.

(** ** The event that closes a run *)

Section Completion.

Context {World : Type}.
Variable time_Now : World -> Z * World.

Lemma logsOf_app (t1 t2 : list (Event World)) :
  logsOf (t1 ++ t2) = logsOf t1 ++ logsOf t2.
Proof. unfold logsOf. apply flat_map_app. Qed.

Lemma logTypesOf_app (t1 t2 : list (Event World)) :
  logTypesOf (t1 ++ t2) = logTypesOf t1 ++ logTypesOf t2.
Proof. unfold logTypesOf. rewrite logsOf_app. apply map_app. Qed.

Lemma NoComplete_nil : NoComplete (@nil (Event World)).
Proof. intros H. inversion H. Qed.

Lemma NoComplete_snoc_log (t : list (Event World)) l r :
  Log.Type_ l <> LogTypeSagaComplete -> NoComplete t ->
  NoComplete (t ++ [EvAppendLog l r]).
Proof.
  unfold NoComplete. intros Hl Ht. rewrite logTypesOf_app. intros Hin.
  apply in_app_or in Hin. destruct Hin as [Hin | [Heq | []]]; auto.
Qed.

Lemma NoComplete_snoc_call (t : list (Event World)) ev :
  logsOf [ev] = [] -> NoComplete t -> NoComplete (t ++ [ev]).
Proof.
  unfold NoComplete. intros Hev Ht. rewrite logTypesOf_app.
  unfold logTypesOf at 2. rewrite Hev. simpl. rewrite app_nil_r. exact Ht.
Qed.

Lemma innerLog_not_complete l : innerLog l -> Log.Type_ l <> LogTypeSagaComplete.
Proof. intros [H | [H | H]]; rewrite H; discriminate. Qed.

Lemma playFrom_no_complete n i m :
  NoComplete (trace m) ->
  wp (playFrom time_Now n i) (fun _ m' => NoComplete (trace m'))
     (fun _ m' => NoComplete (trace m')) m.
Proof.
  apply (playFrom_trace time_Now NoComplete (fun _ => NoComplete)); intros;
    first [ assumption
          | apply NoComplete_snoc_log; [ apply innerLog_not_complete | ]; assumption
          | apply NoComplete_snoc_call; [ reflexivity | assumption ] ].
Qed.

Lemma NoComplete_nothingCompleted (t : list (Event World)) :
  NoComplete t -> nothingCompleted t.
Proof.
  intros H l Hin Hl. apply H. unfold logTypesOf. rewrite <- Hl.
  apply in_map. unfold logsOf. apply in_flat_map.
  exists (EvAppendLog l None). simpl. auto.
Qed.

Lemma Play_completion m :
  NoComplete (trace m) ->
  wp (Play time_Now)
     (fun _ m' => exists t l,
          trace m' = t ++ [EvAppendLog l None]
          /\ Log.Type_ l = LogTypeSagaComplete /\ NoComplete t)
     (fun _ m' => nothingCompleted (trace m')) m.
Proof.
  intros H. unfold Play, AppendLog. wp_go.
  - apply NoComplete_nothingCompleted. apply NoComplete_snoc_log; [discriminate | assumption].
  - eapply wp_mono;
      [ apply playFrom_no_complete; simpl;
        apply NoComplete_snoc_log; [discriminate | assumption]
      | | intros v m' H'; apply NoComplete_nothingCompleted; exact H' ].
    intros ? m' H'. cbn beta. wp_go.
    + intros l Hin. apply in_app_or in Hin. destruct Hin as [Hin | [Heq | []]].
      * apply (NoComplete_nothingCompleted _ H' l Hin).
      * discriminate Heq.
    + eexists _, _. split; [reflexivity | split; [reflexivity | exact H']].
Qed.

End Completion.

(** C3, as stated, fails: the booking saga, whose second action returns a
    non-nil error, is compensated, and its run appends a
    [LogTypeSagaComplete] event all the same. *)
Lemma SagaComplete_appended_after_abort :
  let t := trace (final (Example.run Example.booking Example.memStore)) in
  (exists i f ps res e,
      List.In (EvAction i f ps (Returned res)) t /\ isReturnError res = inr (Some e))
  /\ List.In LogTypeSagaStepCompensate (logTypesOf t)
  /\ List.In LogTypeSagaComplete (logTypesOf t).
Proof.
  split; [ | split ].
  - exists 1, Example.charge, [VContext 0],
      [VError (Some (errors_New "card declined"))], (errors_New "card declined").
    split; [ vm_compute; auto 20 | reflexivity ].
  - vm_compute. auto 20.
  - vm_compute. auto 20.
Qed.

(** C3, amended. A [LogTypeSagaComplete] event is stored exactly by the
    runs from which [Play] returns a Result, whether forward progress
    went through the last step with no error or an action returned an
    error and the invoked steps were compensated: when [Play] returns, the
    last call of the run is the successful append of that event, and no
    other event of the run has that type; when [Play] halts, no event of
    that type was stored. *)
Theorem SagaComplete_iff_Play_returns {World : Type} (time_Now : World -> Z * World)
    (c : ExecutionCoordinator World) (w : World) :
  match Play time_Now (start c w) with
  | Ret r m' =>
      exists t l,
        trace m' = t ++ [EvAppendLog l None]
        /\ Log.Type_ l = LogTypeSagaComplete
        /\ NoComplete t
  | Panic v m' =>
      forall l, List.In (EvAppendLog l None) (trace m') ->
                Log.Type_ l <> LogTypeSagaComplete
  end.
Proof.
  exact (Play_completion time_Now (start c w) NoComplete_nil).
Qed.

(** The compensated run of the booking saga ends with the append of
    [LogTypeSagaComplete], and returns the error of the failed action. *)
Lemma SagaComplete_iff_Play_returns_witness :
  exists r m' t l,
    Play Example.clock
      (start (fresh "run-1" Example.background Example.booking Example.memStore) [])
    = Ret r m'
    /\ Err r = Some (errors_New "card declined")
    /\ trace m' = t ++ [EvAppendLog l None]
    /\ Log.Type_ l = LogTypeSagaComplete
    /\ NoComplete t.
Proof.
  pose proof (SagaComplete_iff_Play_returns Example.clock
                (fresh "run-1" Example.background Example.booking Example.memStore) [])
    as H.
  destruct (Play Example.clock
              (start (fresh "run-1" Example.background Example.booking Example.memStore) []))
    as [r m' | v m'] eqn:E.
  - destruct H as (t & l & Ht & Hl & Hn).
    exists r, m', t, l. repeat split; try assumption.
    vm_compute in E. inversion E. reflexivity.
  - vm_compute in E. discriminate E.
Defined.

(** ** Reading a trace through its tags *)

Section Tags.

Context {World : Type}.

Lemma skeleton_app (t1 t2 : list (Event World)) :
  skeleton (t1 ++ t2) = skeleton t1 ++ skeleton t2.
Proof. apply map_app. Qed.

Lemma actionsOf_skeleton (t : list (Event World)) :
  actionsOf t = tagActions (skeleton t).
Proof.
  induction t as [|ev t IH]; simpl; [reflexivity|].
  unfold actionsOf, tagActions in *. simpl. rewrite IH. destruct ev; reflexivity.
Qed.

Lemma compensationsOf_skeleton (t : list (Event World)) :
  compensationsOf t = tagCompensations (skeleton t).
Proof.
  induction t as [|ev t IH]; simpl; [reflexivity|].
  unfold compensationsOf, tagCompensations in *. simpl. rewrite IH.
  destruct ev; reflexivity.
Qed.

Lemma logTypesOf_skeleton (t : list (Event World)) :
  logTypesOf t = tagLogTypes (skeleton t).
Proof.
  induction t as [|ev t IH]; simpl; [reflexivity|].
  unfold logTypesOf, logsOf, tagLogTypes in *. simpl.
  rewrite map_app, IH. destruct ev; reflexivity.
Qed.

Lemma actionsOf_app (t1 t2 : list (Event World)) :
  actionsOf (t1 ++ t2) = actionsOf t1 ++ actionsOf t2.
Proof. unfold actionsOf. apply flat_map_app. Qed.

Lemma compensationsOf_app (t1 t2 : list (Event World)) :
  compensationsOf (t1 ++ t2) = compensationsOf t1 ++ compensationsOf t2.
Proof. unfold compensationsOf. apply flat_map_app. Qed.

End Tags.

Lemma tagActions_app s1 s2 : tagActions (s1 ++ s2) = tagActions s1 ++ tagActions s2.
Proof. apply flat_map_app. Qed.

Lemma tagCompensations_app s1 s2 :
  tagCompensations (s1 ++ s2) = tagCompensations s1 ++ tagCompensations s2.
Proof. apply flat_map_app. Qed.

Lemma tagLogTypes_app s1 s2 : tagLogTypes (s1 ++ s2) = tagLogTypes s1 ++ tagLogTypes s2.
Proof. apply flat_map_app. Qed.

Lemma tagActions_log t n s : tagActions (TagLog t n :: s) = tagActions s.
Proof. reflexivity. Qed.

Lemma tagCompensations_log t n s :
  tagCompensations (TagLog t n :: s) = tagCompensations s.
Proof. reflexivity. Qed.


Lemma forwardSkeleton_S i n :
  forwardSkeleton i (S n)
  = [TagLog LogTypeSagaStepExec (Some i); TagAction i] ++ forwardSkeleton (S i) n.
Proof. reflexivity. Qed.

Lemma forwardSkeleton_snoc i n :
  forwardSkeleton i (S n)
  = forwardSkeleton i n ++ [TagLog LogTypeSagaStepExec (Some (i + n)); TagAction (i + n)].
Proof.
  unfold forwardSkeleton. rewrite seq_S, flat_map_app. simpl. reflexivity.
Qed.

Lemma compensationSkeleton_S n :
  compensationSkeleton (S n)
  = [TagLog LogTypeSagaStepCompensate (Some n); TagCompensate n] ++ compensationSkeleton n.
Proof.
  unfold compensationSkeleton. rewrite seq_S, rev_app_distr. reflexivity.
Qed.

Lemma tagActions_forward i n : tagActions (forwardSkeleton i n) = seq i n.
Proof.
  revert i. induction n as [|n IH]; intros i; [reflexivity|].
  rewrite forwardSkeleton_S, tagActions_app, IH. reflexivity.
Qed.

Lemma tagCompensations_forward i n : tagCompensations (forwardSkeleton i n) = [].
Proof.
  revert i. induction n as [|n IH]; intros i; [reflexivity|].
  rewrite forwardSkeleton_S, tagCompensations_app, IH. reflexivity.
Qed.




Lemma tagLogTypes_compensation n :
  tagLogTypes (compensationSkeleton n) = repeat LogTypeSagaStepCompensate n.
Proof.
  induction n as [|n IH]; [reflexivity|].
  rewrite compensationSkeleton_S, tagLogTypes_app, IH. reflexivity.
Qed.

(** ** Runs on collaborators that behave *)

Section Forward.

Context {World : Type}.
Variable time_Now : World -> Z * World.

Lemma wp_AppendLog l Q E (m : Machine World) :
  (forall r w', logStore (coord m) l (world m) = (r, w') ->
                Q r (mkMachine (coord m) w' (trace m ++ [EvAppendLog l r]))) ->
  wp (AppendLog l) Q E m.
Proof. intros H. unfold AppendLog. wp_go. auto. Qed.

Lemma wp_AppendLog_ok l Q E (m : Machine World) :
  storeNeverFaults (logStore (coord m)) ->
  (forall w', Q None (mkMachine (coord m) w' (trace m ++ [EvAppendLog l None]))) ->
  wp (AppendLog l) Q E m.
Proof.
  intros Hs H. apply wp_AppendLog. intros r w' Heq.
  pose proof (Hs l (world m)) as Hr. rewrite Heq in Hr. simpl in Hr. subst r. apply H.
Qed.

Lemma wellFormed_inv (obj : Object World) :
  wellFormed obj = true ->
  exists f, obj = OFunc f
            /\ (List.length (In f) <? 1)%nat
               || negb (GoType_eqb (nth 0 (In f) TContext) TContext) = false.
Proof.
  destruct obj as [ | v | f]; simpl; try discriminate.
  destruct (In f) as [|t ts] eqn:Hin; try discriminate.
  intros Ht. exists f. split; [reflexivity|]. rewrite Hin. simpl. rewrite Ht. reflexivity.
Qed.

Lemma wp_getFuncValue_ok obj Q E (m : Machine World) :
  wellFormed obj = true ->
  (forall f, obj = OFunc f -> Q f m) ->
  wp (getFuncValue obj) Q E m.
Proof.
  intros Hwf H. destruct (wellFormed_inv obj Hwf) as (f & -> & Hc).
  unfold getFuncValue. cbn [Object_Kind Kind_eqb negb]. rewrite Hc.
  wp_go. apply H. reflexivity.
Qed.

Lemma wp_getFuncValue_bad obj Q E (m : Machine World) :
  wellFormed obj = false ->
  E (PanicString (configError obj)) m ->
  wp (getFuncValue obj) Q E m.
Proof.
  intros Hwf H. unfold getFuncValue.
  destruct obj as [ | v | f]; simpl in *.
  - wp_go. exact H.
  - destruct v; simpl; wp_go; exact H.
  - wp_go.
    + exact H.
    + exfalso. destruct (In f) as [|t ts]; simpl in *; try discriminate.
      rewrite Hwf in *. discriminate.
Qed.

Lemma wp_callAction i f ps Q E (m : Machine World) :
  (forall r w', Call f ps (world m) = (r, w') ->
     match r with
     | Returned res => Q res (mkMachine (coord m) w' (trace m ++ [EvAction i f ps r]))
     | Panicked p => E p (mkMachine (coord m) w' (trace m ++ [EvAction i f ps r]))
     end) ->
  wp (callAction i f ps) Q E m.
Proof.
  intros H. unfold callAction. wp_go;
    match goal with Hc : Call _ _ _ = _ |- _ => apply (H _ _ Hc) end.
Qed.

Lemma wp_callCompensate i f ps Q E (m : Machine World) :
  (forall r w', Call f ps (world m) = (r, w') ->
     match r with
     | Returned res => Q res (mkMachine (coord m) w' (trace m ++ [EvCompensate i f ps r]))
     | Panicked p => E p (mkMachine (coord m) w' (trace m ++ [EvCompensate i f ps r]))
     end) ->
  wp (callCompensate i f ps) Q E m.
Proof.
  intros H. unfold callCompensate. wp_go;
    match goal with Hc : Call _ _ _ = _ |- _ => apply (H _ _ Hc) end.
Qed.

Ltac wp_call :=
  lazymatch goal with
  | |- wp (AppendLog _) _ _ _ => apply wp_AppendLog; intros ? ? ?
  | |- wp (callAction _ _ _) _ _ _ => apply wp_callAction; intros ? ? ?
  | |- wp (callCompensate _ _ _) _ _ _ => apply wp_callCompensate; intros ? ? ?
  | _ => wp_prim
  end.

Ltac wp_run := repeat (wp_call; cbn beta iota delta [coord world trace]).

Lemma execStep_runs i step (m : Machine World) :
  aborted (coord m) = false ->
  storeNeverFaults (logStore (coord m)) ->
  nth_error (Saga.steps (saga (coord m))) i = Some step ->
  runs (reflect_ValueOf (ctx (coord m))) step ->
  wp (execStep time_Now i)
     (fun _ m' => stepped (reflect_ValueOf (ctx (coord m))) i step m m') never m.
Proof.
  intros Hab Hst Hnth [(f & Hf & Hwf & Hcall) Hcwf].
  unfold execStep. wp_go; try congruence.
  injection Hnth as ->.
  apply wp_AppendLog_ok; [exact Hst|]. intros w2. cbn [coord world trace].
  wp_go.
  apply wp_getFuncValue_ok; [exact Hwf|]. intros f' Hf'.
  rewrite Hf in Hf'. injection Hf' as <-.
  wp_go. apply wp_callAction. cbn [coord world trace]. intros r w3 Hc.
  destruct (Hcall w2) as (res & Hres & Hnil). rewrite Hc in Hres. simpl in Hres. subst r.
  wp_go.
  apply wp_getFuncValue_ok; [exact Hcwf|]. intros g Hg.
  wp_go; try congruence.
  lazymatch goal with
  | |- context [EvAppendLog ?l None] => exists l, f, g, res, w3
  end.
  repeat (split; [ first [ reflexivity | assumption ] | ]).
  split; [ exists w2; rewrite Hc; reflexivity | ].
  rewrite <- app_assoc. reflexivity.
Qed.

Lemma playFrom_runs (good : list (Step.t World)) :
  forall pre post (m : Machine World),
    Saga.steps (saga (coord m)) = pre ++ good ++ post ->
    aborted (coord m) = false ->
    storeNeverFaults (logStore (coord m)) ->
    Forall (runs (reflect_ValueOf (ctx (coord m)))) good ->
    wp (playFrom time_Now (List.length good) (List.length pre))
       (fun _ m' => progressed (List.length pre) good m m') never m.
Proof.
  induction good as [|step good IH]; intros pre post m Hsteps Hab Hst Hgood.
  - simpl. apply wp_ret. unfold progressed.
    split; [ apply sameConfig_refl | ].
    split; [ exact Hab | ]. split; [ reflexivity | ]. split.
    + exists (@nil (FuncValue World)), (@nil (list Value)).
      rewrite !app_nil_r. repeat split. constructor.
    + simpl. rewrite app_nil_r. reflexivity.
  - inversion Hgood as [|? ? Hstep Hrest]; subst.
    cbn [List.length playFrom]. apply wp_bind.
    eapply wp_mono; [ apply (execStep_runs (List.length pre) step m Hab Hst) | | auto ].
    + rewrite Hsteps, nth_error_app2, Nat.sub_diag by lia. reflexivity.
    + exact Hstep.
    + intros ? m1 (l & f & g & res & w' & Hl & Hn & Hf & Hg & Hnil & _ & ->). cbn beta.
      assert (Hlen : S (List.length pre) = List.length (pre ++ [step]))
        by (rewrite length_app; simpl; lia).
      rewrite Hlen.
      eapply wp_mono; [ apply (IH (pre ++ [step]) post) | | auto ].
      * simpl. rewrite Hsteps, <- app_assoc. reflexivity.
      * exact Hab.
      * exact Hst.
      * exact Hrest.
      * intros ? m2 (Hcfg & Hab2 & Herr2 & (gs & rs & Htc & Hrv & Hgs & Hrs) & Hsk).
        simpl in *. unfold progressed. split; [ exact Hcfg | ].
        split; [ exact Hab2 | ]. split; [ exact Herr2 | ]. split.
        -- exists (g :: gs), (res :: rs). rewrite Htc, Hrv, <- !app_assoc. simpl.
           repeat split; auto.
        -- rewrite Hsk, !skeleton_app, <- app_assoc. simpl.
           rewrite Hl, Hn, <- Hlen. reflexivity.
Qed.

Lemma wp_returns {A} (c : M World A) Q (m : Machine World) :
  wp c Q never m -> exists a m', c m = Ret a m' /\ Q a m'.
Proof.
  unfold wp. destruct (c m) as [a m' | v m']; intros H.
  - exists a, m'. auto.
  - destruct H.
Qed.

Lemma wp_halts {A} (c : M World A) (E : PanicValue -> Machine World -> Prop)
    (m : Machine World) :
  wp c (fun _ _ => False) E m -> exists v m', c m = Panic v m' /\ E v m'.
Proof.
  unfold wp. destruct (c m) as [a m' | v m']; intros H.
  - destruct H.
  - exists v, m'. auto.
Qed.

Lemma Play_all_success id ctx sg store w :
  storeNeverFaults store ->
  Forall (runs (reflect_ValueOf ctx)) (Saga.steps sg) ->
  wp (Play time_Now)
     (fun r m' =>
        r = mkResult None
        /\ skeleton (trace m')
           = TagLog LogTypeStartSaga None
             :: forwardSkeleton 0 (List.length (Saga.steps sg))
             ++ [TagLog LogTypeSagaComplete None])
     never (start (fresh id ctx sg store) w).
Proof.
  intros Hst Hgood. unfold Play. wp_go.
  apply wp_AppendLog_ok; [exact Hst|]. intros w1. cbn [coord world trace].
  wp_go. cbn [fresh NewCoordinator set_ExecutionID saga].
  eapply wp_mono; [ apply (playFrom_runs (Saga.steps sg) [] []) | | auto ].
  - simpl. rewrite app_nil_r. reflexivity.
  - reflexivity.
  - exact Hst.
  - exact Hgood.
  - intros ? m1 (Hcfg & Hab & Herr & _ & Hsk). cbn beta.
    destruct Hcfg as (Hsaga & Hctx & Hstore & Hid). simpl in *.
    wp_go. apply wp_AppendLog_ok; [simpl; rewrite Hstore; exact Hst|]. intros wc.
    cbn [coord world trace]. wp_go. split.
    + rewrite Herr. reflexivity.
    + rewrite skeleton_app, Hsk. reflexivity.
Qed.

(** *** Compensation with compensations that return nil *)






Lemma playFrom_aborted n : forall i (m : Machine World),
  aborted (coord m) = true -> playFrom time_Now n i m = Ret tt m.
Proof.
  induction n as [|n IH]; intros i m Hab; [ reflexivity | ].
  cbn [playFrom]. unfold bind at 1. unfold execStep at 1.
  unfold bind at 1. unfold getCoord at 1. rewrite Hab.
  unfold ret at 1. apply IH. exact Hab.
Qed.


Lemma playFrom_add a : forall b i (m : Machine World),
  playFrom time_Now (a + b) i m
  = bind (playFrom time_Now a i) (fun _ => playFrom time_Now b (i + a)) m.
Proof.
  induction a as [|a IH]; intros b i m.
  - simpl. unfold bind, ret. rewrite Nat.add_0_r. reflexivity.
  - cbn [Nat.add playFrom]. unfold bind.
    destruct (execStep time_Now i m) as [u m1 | v m1]; [ | reflexivity ].
    rewrite IH. unfold bind. replace (i + S a) with (S i + a) by lia. reflexivity.
Qed.

Lemma wp_playFrom_add a b i Q E (m : Machine World) :
  wp (bind (playFrom time_Now a i) (fun _ => playFrom time_Now b (i + a))) Q E m ->
  wp (playFrom time_Now (a + b) i) Q E m.
Proof. unfold wp. rewrite playFrom_add. auto. Qed.



(** *** Malformed callables *)

Lemma execStep_malformed_action i step (m : Machine World) :
  aborted (coord m) = false ->
  storeNeverFaults (logStore (coord m)) ->
  nth_error (Saga.steps (saga (coord m))) i = Some step ->
  wellFormed (Step.Func step) = false ->
  wp (execStep time_Now i) (fun _ _ => False)
     (fun v m' =>
        v = PanicString (configError (Step.Func step))
        /\ coord m' = coord m
        /\ skeleton (trace m')
           = skeleton (trace m) ++ [TagLog LogTypeSagaStepExec (Some i)])
     m.
Proof.
  intros Hab Hst Hnth Hbad.
  unfold execStep. wp_go; try congruence.
  injection Hnth as ->.
  apply wp_AppendLog_ok; [exact Hst|]. intros w2. cbn [coord world trace].
  wp_go.
  apply wp_getFuncValue_bad; [exact Hbad|].
  split; [ reflexivity | ]. split; [ reflexivity | ].
  simpl. rewrite skeleton_app. reflexivity.
Qed.

Lemma execStep_malformed_compensation i step (m : Machine World) :
  aborted (coord m) = false ->
  storeNeverFaults (logStore (coord m)) ->
  nth_error (Saga.steps (saga (coord m))) i = Some step ->
  actionReturns (reflect_ValueOf (ctx (coord m))) (Step.Func step) (fun _ => True) ->
  wellFormed (Step.CompensateFunc step) = false ->
  wp (execStep time_Now i) (fun _ _ => False)
     (fun v m' =>
        v = PanicString (configError (Step.CompensateFunc step))
        /\ coord m' = coord m
        /\ skeleton (trace m')
           = skeleton (trace m) ++ [TagLog LogTypeSagaStepExec (Some i); TagAction i])
     m.
Proof.
  intros Hab Hst Hnth (f & Hf & Hwf & Hcall) Hbad.
  unfold execStep. wp_go; try congruence.
  injection Hnth as ->.
  apply wp_AppendLog_ok; [exact Hst|]. intros w2. cbn [coord world trace].
  wp_go.
  apply wp_getFuncValue_ok; [exact Hwf|]. intros f' Hf'.
  rewrite Hf in Hf'. injection Hf' as <-.
  wp_go. apply wp_callAction. cbn [coord world trace]. intros r w3 Hc.
  destruct (Hcall w2) as (res & Hres & _). rewrite Hc in Hres. simpl in Hres. subst r.
  wp_go.
  apply wp_getFuncValue_bad; [exact Hbad|].
  split; [ reflexivity | ]. split; [ reflexivity | ].
  simpl. rewrite !skeleton_app, <- app_assoc. reflexivity.
Qed.

Lemma Play_halts_at_step id ctx sg store w pre sk post obj tail :
  storeNeverFaults store ->
  Saga.steps sg = pre ++ sk :: post ->
  Forall (runs (reflect_ValueOf ctx)) pre ->
  (forall m : Machine World,
      sameConfig (fresh id ctx sg store) (coord m) ->
      aborted (coord m) = false ->
      wp (execStep time_Now (List.length pre)) (fun _ _ => False)
         (fun v m' =>
            v = PanicString (configError obj)
            /\ coord m' = coord m
            /\ skeleton (trace m') = skeleton (trace m) ++ tail) m) ->
  wp (Play time_Now) (fun _ _ => False) (haltedAtStep obj (List.length pre) tail)
     (start (fresh id ctx sg store) w).
Proof.
  intros Hst Hsteps Hpre Hstep. unfold Play. wp_go.
  apply wp_AppendLog_ok; [exact Hst|]. intros w1. cbn [coord world trace].
  wp_go. cbn [fresh NewCoordinator set_ExecutionID saga start coord].
  rewrite Hsteps, length_app. cbn [List.length].
  apply wp_playFrom_add. apply wp_bind.
  eapply wp_mono; [ apply (playFrom_runs pre [] (sk :: post)) | | intros v m' [] ].
  - exact Hsteps.
  - reflexivity.
  - exact Hst.
  - exact Hpre.
  - intros ? m1 (Hcfg & Hab & Herr & (gs & rs & Htc & Hrv & Hgs & Hrs) & Hsk). cbn beta.
    simpl in Hcfg, Herr, Htc, Hrv, Hsk.
    cbn [playFrom]. apply wp_bind.
    eapply wp_mono; [ apply (Hstep m1 Hcfg Hab) | intros ? ? [] | ].
    intros v m2 (Hv & Hco & Hsk2). unfold haltedAtStep.
    rewrite Hco, Hsk2, Hsk, Herr, Hab, Htc.
    repeat (split; [ first [ assumption | reflexivity ] | ]).
    apply (Forall2_length Hgs).
Qed.

Lemma step_of_config id cx sg store pre sk post (m : Machine World) :
  storeNeverFaults store ->
  Saga.steps sg = pre ++ sk :: post ->
  sameConfig (fresh id cx sg store) (coord m) ->
  storeNeverFaults (logStore (coord m))
  /\ nth_error (Saga.steps (saga (coord m))) (List.length pre) = Some sk
  /\ ctx (coord m) = cx.
Proof.
  intros Hst Hsteps (Hsaga & Hctx & Hstore & _). simpl in Hsaga, Hctx, Hstore.
  rewrite Hsaga, Hctx, Hstore, Hsteps, nth_error_app2, Nat.sub_diag by lia.
  repeat split. exact Hst.
Qed.

End Forward.



(** C7. On a store that never faults, when the steps before step k go
    forward and the action of step k is not a function value, or is a
    function whose first declared parameter is not the context type (or
    that declares none), [Play] reaches step k, appends its step event and
    halts with the configuration error: it panics with the string that
    [checkErr] builds, and returns no Result; the actions of the steps
    0..k-1 were invoked in order, the action of step k was not, and no
    forward-step error was recorded. *)
Theorem malformed_action_is_fatal {World : Type}
    (time_Now : World -> Z * World) (id : string) (ctx : option Context)
    (sg : Saga.t World) (store : Store World) (w : World)
    (pre : list (Step.t World)) (sk : Step.t World) (post : list (Step.t World)) :
  storeNeverFaults store ->
  Saga.steps sg = pre ++ sk :: post ->
  Forall (runs (reflect_ValueOf ctx)) pre ->
  wellFormed (Step.Func sk) = false ->
  let k := List.length pre in
  exists msg m',
    Play time_Now (start (fresh id ctx sg store) w) = Panic (PanicString msg) m'
    /\ msg = match Step.Func sk with
             | OFunc _ => Sprintln [] (errors_New "first argument must use context.ctx")
             | _ => Sprintln [] (errors_New "registered object must be a func")
             end
    /\ skeleton (trace m')
       = TagLog LogTypeStartSaga None
         :: forwardSkeleton 0 k ++ [TagLog LogTypeSagaStepExec (Some k)]
    /\ actionsOf (trace m') = seq 0 k
    /\ compensationsOf (trace m') = []
    /\ err (coord m') = None
    /\ aborted (coord m') = false.
Proof.
  intros Hst Hsteps Hpre Hbad k.
  assert (Hstep : forall m : Machine World,
             sameConfig (fresh id ctx sg store) (coord m) ->
             aborted (coord m) = false ->
             wp (execStep time_Now k) (fun _ _ => False)
                (fun v m' =>
                   v = PanicString (configError (Step.Func sk))
                   /\ coord m' = coord m
                   /\ skeleton (trace m')
                      = skeleton (trace m) ++ [TagLog LogTypeSagaStepExec (Some k)]) m).
  { intros m Hcfg Hab.
    destruct (step_of_config id ctx sg store pre sk post m Hst Hsteps Hcfg)
      as (Hst' & Hnth & _).
    exact (execStep_malformed_action time_Now k sk m Hab Hst' Hnth Hbad). }
  destruct (wp_halts _ _ _
              (Play_halts_at_step time_Now id ctx sg store w pre sk post
                 (Step.Func sk) [TagLog LogTypeSagaStepExec (Some k)]
                 Hst Hsteps Hpre Hstep))
    as (v & m' & HP & Hv & Hsk & Herr & Hab & _).
  exists (configError (Step.Func sk)), m'. subst v.
  split; [ exact HP | ]. split; [ reflexivity | ]. split; [ exact Hsk | ].
  split; [ | split; [ | split; assumption ] ].
  - rewrite actionsOf_skeleton, Hsk, tagActions_log, tagActions_app,
      tagActions_forward. apply app_nil_r.
  - rewrite compensationsOf_skeleton, Hsk, tagCompensations_log,
      tagCompensations_app, tagCompensations_forward. reflexivity.
Qed.

(** C10. A step's compensation is shape-validated during the forward
    execution of the step, after its action was invoked and before the
    results of the action are looked at: on a store that never faults,
    when the steps before step k go forward, the action of step k is a
    well-formed callable that returns (a nil error or not), and the
    compensation of step k is malformed, [Play] invokes the action of
    step k and halts with the configuration error of the compensation;
    no compensation was invoked, no error was recorded and no abort. *)
Theorem malformed_compensation_is_fatal {World : Type}
    (time_Now : World -> Z * World) (id : string) (ctx : option Context)
    (sg : Saga.t World) (store : Store World) (w : World)
    (pre : list (Step.t World)) (sk : Step.t World) (post : list (Step.t World)) :
  storeNeverFaults store ->
  Saga.steps sg = pre ++ sk :: post ->
  Forall (runs (reflect_ValueOf ctx)) pre ->
  actionReturns (reflect_ValueOf ctx) (Step.Func sk) (fun _ => True) ->
  wellFormed (Step.CompensateFunc sk) = false ->
  let k := List.length pre in
  exists msg m',
    Play time_Now (start (fresh id ctx sg store) w) = Panic (PanicString msg) m'
    /\ msg = match Step.CompensateFunc sk with
             | OFunc _ => Sprintln [] (errors_New "first argument must use context.ctx")
             | _ => Sprintln [] (errors_New "registered object must be a func")
             end
    /\ skeleton (trace m')
       = TagLog LogTypeStartSaga None :: forwardSkeleton 0 (S k)
    /\ actionsOf (trace m') = seq 0 (S k)
    /\ compensationsOf (trace m') = []
    /\ err (coord m') = None
    /\ aborted (coord m') = false
    /\ List.length (toCompensate (coord m')) = k.
Proof.
  intros Hst Hsteps Hpre Hact Hbad k.
  assert (Hstep : forall m : Machine World,
             sameConfig (fresh id ctx sg store) (coord m) ->
             aborted (coord m) = false ->
             wp (execStep time_Now k) (fun _ _ => False)
                (fun v m' =>
                   v = PanicString (configError (Step.CompensateFunc sk))
                   /\ coord m' = coord m
                   /\ skeleton (trace m')
                      = skeleton (trace m)
                        ++ [TagLog LogTypeSagaStepExec (Some k); TagAction k]) m).
  { intros m Hcfg Hab.
    destruct (step_of_config id ctx sg store pre sk post m Hst Hsteps Hcfg)
      as (Hst' & Hnth & Hctx).
    apply (execStep_malformed_compensation time_Now k sk m Hab Hst' Hnth);
      [ rewrite Hctx; exact Hact | exact Hbad ]. }
  destruct (wp_halts _ _ _
              (Play_halts_at_step time_Now id ctx sg store w pre sk post
                 (Step.CompensateFunc sk)
                 [TagLog LogTypeSagaStepExec (Some k); TagAction k]
                 Hst Hsteps Hpre Hstep))
    as (v & m' & HP & Hv & Hsk & Herr & Hab & Hlen).
  fold k in Hsk, Hlen.
  assert (Hsk' : skeleton (trace m')
                 = TagLog LogTypeStartSaga None :: forwardSkeleton 0 (S k))
    by (rewrite Hsk, forwardSkeleton_snoc; reflexivity).
  exists (configError (Step.CompensateFunc sk)), m'. subst v.
  split; [ exact HP | ]. split; [ reflexivity | ]. split; [ exact Hsk' | ].
  split; [ | split; [ | repeat split; assumption ] ].
  - rewrite actionsOf_skeleton, Hsk', tagActions_log, tagActions_forward. reflexivity.
  - rewrite compensationsOf_skeleton, Hsk', tagCompensations_log,
      tagCompensations_forward. reflexivity.
Qed.

(** ** The example sagas *)

Module ExampleFacts.
Import Example.

Lemma memStore_never_faults : storeNeverFaults memStore.
Proof. intros l w. reflexivity. Qed.

Lemma reserve_succeeds : succeeds (reflect_ValueOf background) (OFunc reserve).
Proof.
  exists reserve. split; [ reflexivity | ]. split; [ reflexivity | ].
  intros w. exists [VInt 42; VError None]. split; reflexivity.
Qed.



Lemma stepReserve_undoes : undoes (reflect_ValueOf background) stepReserve.
Proof.
  exists reserve, release. split; [ reflexivity | ]. split; [ reflexivity | ].
  split; [ reflexivity | ].
  intros w res Hres w'. injection Hres as <-.
  exists [VError None]. split; reflexivity.
Qed.

Lemma stepCharge_undoes : undoes (reflect_ValueOf background) stepCharge.
Proof.
  exists charge, refund. split; [ reflexivity | ]. split; [ reflexivity | ].
  split; [ reflexivity | ].
  intros w res Hres w'. injection Hres as <-.
  exists [VError None]. split; reflexivity.
Qed.

Lemma stepShip_undoes : undoes (reflect_ValueOf background) stepShip.
Proof.
  exists refund, refund. split; [ reflexivity | ]. split; [ reflexivity | ].
  split; [ reflexivity | ].
  intros w res Hres w'. injection Hres as <-.
  exists [VError None]. split; reflexivity.
Qed.

Lemma stepReserve_runs : runs (reflect_ValueOf background) stepReserve.
Proof. split; [ exact reserve_succeeds | reflexivity ]. Qed.



End ExampleFacts.





(** The empty saga: a nil error and the two events of start and end. *)
Example zero_step_saga (w : Example.World) :
  exists m',
    Play Example.clock
      (start (fresh "run-0" Example.background (Saga.mk "empty" []) Example.memStore) w)
    = Ret (mkResult None) m'
    /\ logTypesOf (trace m') = [LogTypeStartSaga; LogTypeSagaComplete].
Proof.
  destruct (wp_returns _ _ _
              (Play_all_success Example.clock "run-0" Example.background
                 (Saga.mk "empty" []) Example.memStore w
                 ExampleFacts.memStore_never_faults (Forall_nil _)))
    as (r & m' & HP & -> & Hsk).
  exists m'. split; [ exact HP | ].
  rewrite logTypesOf_skeleton, Hsk. reflexivity.
Qed.

(** The unregistered saga halts at step 1, whose action is a string. *)
Lemma malformed_action_is_fatal_witness :
  exists m',
    Play Example.clock
      (start (fresh "run-1" Example.background Example.unregistered Example.memStore) [])
    = Panic (PanicString (Sprintln [] (errors_New "registered object must be a func"))) m'
    /\ actionsOf (trace m') = [0].
Proof.
  destruct (malformed_action_is_fatal Example.clock "run-1"
              Example.background Example.unregistered Example.memStore []
              [Example.stepReserve] Example.stepNotify [Example.stepShip]
              ExampleFacts.memStore_never_faults
              eq_refl
              (Forall_cons _ ExampleFacts.stepReserve_runs (Forall_nil _))
              eq_refl)
    as (msg & m' & HP & -> & _ & Ha & _).
  exists m'. split; [ exact HP | exact Ha ].
Defined.

(** The miswired saga halts at step 1, after its action, on the
    compensation that does not take the context first. *)
Lemma malformed_compensation_is_fatal_witness :
  exists m',
    Play Example.clock
      (start (fresh "run-1" Example.background Example.miswired Example.memStore) [])
    = Panic (PanicString (Sprintln [] (errors_New "first argument must use context.ctx"))) m'
    /\ actionsOf (trace m') = [0; 1]
    /\ compensationsOf (trace m') = [].
Proof.
  destruct (malformed_compensation_is_fatal Example.clock "run-1"
              Example.background Example.miswired Example.memStore []
              [Example.stepReserve] Example.stepInvoice [Example.stepShip]
              ExampleFacts.memStore_never_faults
              eq_refl
              (Forall_cons _ ExampleFacts.stepReserve_runs (Forall_nil _))
              (ex_intro _ Example.refund
                 (conj eq_refl (conj eq_refl
                    (fun w => ex_intro _ [VError None] (conj eq_refl I)))))
              eq_refl)
    as (msg & m' & HP & -> & _ & Ha & Hc & _).
  exists m'. split; [ exact HP | ]. split; [ exact Ha | exact Hc ].
Defined.

(** ** The structure of a run from a fresh coordinator *)

Lemma snoc_split {A} (t t1 t2 : list A) (x ev : A) :
  t ++ [ev] = t1 ++ x :: t2 ->
  (t2 = [] /\ t1 = t /\ x = ev)
  \/ exists t2', t2 = t2' ++ [ev] /\ t = t1 ++ x :: t2'.
Proof.
  intros H. destruct t2 as [|y t2].
  - left. apply app_inj_tail in H. destruct H as [-> ->]. auto.
  - right. destruct (exists_last (l := y :: t2)) as (t2' & z & Hz); [ discriminate | ].
    rewrite Hz in H |- *.
    change (t1 ++ x :: t2' ++ [z]) with (t1 ++ (x :: t2') ++ [z]) in H.
    rewrite app_assoc in H. apply app_inj_tail in H. destruct H as [-> ->].
    exists t2'. auto.
Qed.

Section TraceShapes.

Context {World : Type}.
Variable cv : Value.
Variable steps : list (Step.t World).

Lemma actionsOf_snoc_action (t : list (Event World)) i f ps r :
  actionsOf (t ++ [EvAction i f ps r]) = actionsOf t ++ [i].
Proof. rewrite actionsOf_app. reflexivity. Qed.

Lemma actionsOf_snoc_log (t : list (Event World)) l r :
  actionsOf (t ++ [EvAppendLog l r]) = actionsOf t.
Proof. rewrite actionsOf_app. apply app_nil_r. Qed.

Lemma actionsOf_snoc_compensate (t : list (Event World)) i f ps r :
  actionsOf (t ++ [EvCompensate i f ps r]) = actionsOf t.
Proof. rewrite actionsOf_app. apply app_nil_r. Qed.

Lemma NoCompensation_Justified (t : list (Event World)) :
  NoCompensation t -> Justified cv steps t.
Proof.
  intros H t1 t2 i g ps r Heq. exfalso. apply (H i g ps r).
  rewrite Heq. apply in_or_app. right. left. reflexivity.
Qed.

Lemma fwd_NoCompensation (t : list (Event World)) :
  Forall fwdEvent t -> NoCompensation t.
Proof.
  intros H i g ps r Hin. rewrite Forall_forall in H. exact (H _ Hin).
Qed.

Lemma NoCompensation_snoc (t : list (Event World)) ev :
  NoCompensation t ->
  (forall i g ps r, ev <> EvCompensate i g ps r) ->
  NoCompensation (t ++ [ev]).
Proof.
  intros Ht Hev i g ps r Hin. apply in_app_or in Hin.
  destruct Hin as [Hin | [Heq | []]].
  - exact (Ht _ _ _ _ Hin).
  - exact (Hev _ _ _ _ Heq).
Qed.

Lemma Justified_snoc_other (t : list (Event World)) ev :
  Justified cv steps t ->
  (forall i g ps r, ev <> EvCompensate i g ps r) ->
  Justified cv steps (t ++ [ev]).
Proof.
  intros Ht Hev t1 t2 i g ps r Heq.
  apply snoc_split in Heq. destruct Heq as [(_ & _ & Heq) | (t2' & _ & Heq)].
  - exfalso. exact (Hev _ _ _ _ (eq_sym Heq)).
  - exact (Ht _ _ _ _ _ _ Heq).
Qed.

Lemma Justified_snoc_compensate (t : list (Event World)) i f g res step r :
  Justified cv steps t ->
  List.In (EvAction i f [cv] (Returned res)) t ->
  nth_error steps i = Some step ->
  Step.Func step = OFunc f ->
  Step.CompensateFunc step = OFunc g ->
  Justified cv steps (t ++ [EvCompensate i g (cv :: removelast res) r]).
Proof.
  intros Ht Hin Hstep Hf Hg t1 t2 i' g' ps' r' Heq.
  apply snoc_split in Heq. destruct Heq as [(_ & -> & Heq) | (t2' & _ & Heq)].
  - injection Heq as -> -> -> ->. exists f, res, step. auto.
  - exact (Ht _ _ _ _ _ _ Heq).
Qed.

Lemma AbortShape_snoc e (t : list (Event World)) ev :
  AbortShape e t -> afterAbortEvent ev -> AbortShape e (t ++ [ev]).
Proof.
  intros (t1 & k & f & ps & res & la & r & t2 & -> & Hres & Hfwd & Hla & Hn & Ht2) Hev.
  exists t1, k, f, ps, res, la, r, (t2 ++ [ev]).
  split; [ rewrite <- app_assoc; reflexivity | ].
  repeat (split; [ assumption | ]).
  apply Forall_app. split; [ exact Ht2 | repeat constructor; exact Hev ].
Qed.

Lemma AbortShape_start e (t : list (Event World)) k f ps res la r :
  isReturnError res = inr (Some e) ->
  Forall fwdEvent t ->
  Log.Type_ la = LogTypeSagaAbort ->
  Log.StepNumber la = Some (S (List.length (actionsOf t))) ->
  AbortShape e ((t ++ [EvAction k f ps (Returned res)]) ++ [EvAppendLog la r]).
Proof.
  intros Hres Hfwd Hla Hn. exists t, k, f, ps, res, la, r, [].
  rewrite <- app_assoc. repeat (split; [ first [ reflexivity | assumption ] | ]).
  constructor.
Qed.

Lemma Linked_more (c : ExecutionCoordinator World) (t t' : list (Event World)) :
  Linked cv steps c t -> Linked cv steps c (t ++ t').
Proof.
  intros H j res g Hr Hg. destruct (H j res g Hr Hg) as (f & step & Hin & Hrest).
  exists f, step. split; [ apply in_or_app; left; exact Hin | exact Hrest ].
Qed.

End TraceShapes.

Section RunInvariant.

Context {World : Type}.
Variable time_Now : World -> Z * World.
Variable cv : Value.
Variable steps : list (Step.t World).

Lemma Compensating_Halted e (m : Machine World) :
  Compensating cv steps e m -> Halted cv steps m.
Proof.
  intros (_ & Herr & Hshape & Hjust & Hact & _). split; [ exact Hjust | ]. split.
  - intros e' He'. rewrite Herr in He'. injection He' as <-. exact Hshape.
  - eexists. exact Hact.
Qed.

Lemma Compensating_log e c w w' t l r :
  Compensating cv steps e (mkMachine c w t) ->
  Log.Type_ l = LogTypeSagaStepCompensate \/ Log.Type_ l = LogTypeSagaComplete ->
  Compensating cv steps e (mkMachine c w' (t ++ [EvAppendLog l r])).
Proof.
  intros (Hcfg & Herr & Hshape & Hjust & Hact & Hlink) Hl. simpl in *.
  split; [ exact Hcfg | ]. split; [ exact Herr | ]. simpl. split.
  - apply AbortShape_snoc; assumption.
  - split; [ apply Justified_snoc_other; [ assumption | intros; discriminate ] | ].
    split; [ rewrite actionsOf_snoc_log; exact Hact | ].
    apply Linked_more. exact Hlink.
Qed.

Lemma Compensating_compensate e c w w' t j res g r :
  Compensating cv steps e (mkMachine c w t) ->
  nth_error (returnedValuesFromFunc c) j = Some res ->
  nth_error (toCompensate c) j = Some g ->
  Compensating cv steps e
    (mkMachine c w' (t ++ [EvCompensate j g (cv :: removelast res) r])).
Proof.
  intros (Hcfg & Herr & Hshape & Hjust & Hact & Hlink) Hres Hg. simpl in *.
  destruct (Hlink j res g Hres Hg) as (f & step & Hin & Hstep & Hf & Hgs).
  split; [ exact Hcfg | ]. split; [ exact Herr | ]. simpl. split.
  - apply AbortShape_snoc; [ assumption | exact I ].
  - split; [ apply (Justified_snoc_compensate cv steps t j f g res step); assumption | ].
    split; [ rewrite actionsOf_snoc_compensate; exact Hact | ].
    apply Linked_more. exact Hlink.
Qed.

Lemma Compensating_world e c w w' t :
  Compensating cv steps e (mkMachine c w t) ->
  Compensating cv steps e (mkMachine c w' t).
Proof. exact (fun H => H). Qed.

Ltac compensating w :=
  cbn [coord world trace] in *;
  repeat first
    [ assumption
    | apply (Compensating_compensate _ _ w); [ | assumption | assumption ]
    | apply (Compensating_log _ _ w); [ | simpl; auto ]
    | apply (Compensating_world _ _ w); assumption ].

Lemma compensateStep_compensating e j (m : Machine World) :
  Compensating cv steps e m ->
  wp (compensateStep time_Now j)
     (fun _ m' => coord m' = coord m /\ Compensating cv steps e m')
     (fun _ m' => Halted cv steps m') m.
Proof.
  intros H. destruct m as [c w t].
  assert (Hcv : reflect_ValueOf (ctx c) = cv) by apply H.
  unfold compensateStep, AppendLog, callCompensate.
  wp_go; cbn [List.app]; rewrite ?addParams_removelast, ?Hcv; cbn [List.app].
  all: try (split; [ reflexivity | ]).
  all: try apply (Compensating_Halted e).
  all: compensating w.
Qed.

Lemma compensateFrom_compensating e n : forall (m : Machine World),
  Compensating cv steps e m ->
  wp (compensateFrom time_Now n)
     (fun _ m' => coord m' = coord m /\ Compensating cv steps e m')
     (fun _ m' => Halted cv steps m') m.
Proof.
  induction n as [|n IH]; intros m H.
  - apply wp_ret. auto.
  - cbn [compensateFrom]. apply wp_bind.
    eapply wp_mono; [ apply compensateStep_compensating; exact H | | auto ].
    intros ? m1 (Hco & H1). cbn beta.
    eapply wp_mono; [ apply IH; exact H1 | | auto ].
    intros ? m2 (Hco2 & H2). cbn beta. split; [ congruence | exact H2 ].
Qed.

Lemma AboutToAbort_Compensating e c c' w w' t la r :
  AboutToAbort cv steps e (mkMachine c w t) ->
  agree c c' ->
  Log.Type_ la = LogTypeSagaAbort ->
  Log.StepNumber la = Some (List.length (toCompensate c)) ->
  Compensating cv steps e (mkMachine c' w' (t ++ [EvAppendLog la r])).
Proof.
  intros (Hcfg & Herr & Hlink & Hact & Hlen & t1 & k & f & ps & res & Ht & Hres & Hfwd)
         (Actx & Asaga & Aerr & Arv & Atc) Hla Hn.
  cbn [coord trace] in *. subst t.
  unfold Compensating, configured, Linked in *. cbn [coord trace].
  rewrite Actx, Asaga, Aerr, Arv, Atc.
  split; [ exact Hcfg | ]. split; [ exact Herr | ].
  split; [ | split; [ | split ] ].
  - apply AbortShape_start; try assumption.
    rewrite Hn, Hlen. f_equal.
    rewrite actionsOf_snoc_action in Hact.
    apply (f_equal (@List.length nat)) in Hact.
    rewrite length_app, length_seq in Hact. simpl in Hact. lia.
  - apply NoCompensation_Justified.
    repeat (apply NoCompensation_snoc; [ | intros; discriminate ]).
    apply fwd_NoCompensation. exact Hfwd.
  - rewrite actionsOf_snoc_log. exact Hact.
  - intros j res' g Hr Hg. destruct (Hlink j res' g Hr Hg) as (f' & step & Hin & Hrest).
    exists f', step. split; [ apply in_or_app; left; exact Hin | exact Hrest ].
Qed.

Lemma abort_aborting e (m : Machine World) :
  AboutToAbort cv steps e m ->
  wp (abort time_Now)
     (fun _ m' => aborted (coord m') = true /\ Compensating cv steps e m')
     (fun _ m' => Halted cv steps m') m.
Proof.
  intros H. destruct m as [c w t].
  unfold abort, AppendLog. wp_go.
  - apply (Compensating_Halted e).
    apply (AboutToAbort_Compensating e c c w);
      [ exact H | repeat split | reflexivity | reflexivity ].
  - eapply wp_mono;
      [ apply (compensateFrom_compensating e);
        apply (AboutToAbort_Compensating e c (set_aborted true c) w);
        [ exact H | repeat split | reflexivity | reflexivity ]
      | | auto ].
    intros ? m1 (Hco & Hc1). cbn beta. split; [ rewrite Hco; reflexivity | exact Hc1 ].
Qed.

Lemma NoCompensation_app (t t' : list (Event World)) :
  NoCompensation t -> NoCompensation t' -> NoCompensation (t ++ t').
Proof.
  intros H H' i g ps r Hin. apply in_app_or in Hin. destruct Hin as [Hin | Hin].
  - exact (H _ _ _ _ Hin).
  - exact (H' _ _ _ _ Hin).
Qed.

Lemma Forwarding_Halted c w t c' w' ext :
  Forwarding cv steps (mkMachine c w t) ->
  err c' = None ->
  NoCompensation ext ->
  actionsOf ext = [] \/ actionsOf ext = [List.length (returnedValuesFromFunc c)] ->
  Halted cv steps (mkMachine c' w' (t ++ ext)).
Proof.
  intros (_ & _ & _ & Hfwd & Hact & _) Herr Hext Hacts. cbn [coord trace] in *.
  split; [ | split ]; cbn [coord trace].
  - apply NoCompensation_Justified, NoCompensation_app;
      [ apply fwd_NoCompensation; exact Hfwd | exact Hext ].
  - intros e He. congruence.
  - rewrite actionsOf_app, Hact. destruct Hacts as [-> | ->].
    + eexists. rewrite app_nil_r. reflexivity.
    + eexists. rewrite <- seq_S. reflexivity.
Qed.

Lemma Linked_step c c' (t : list (Event World)) l f g res step :
  Linked cv steps c t ->
  List.length (toCompensate c) = List.length (returnedValuesFromFunc c) ->
  returnedValuesFromFunc c' = returnedValuesFromFunc c ++ [res] ->
  toCompensate c' = toCompensate c ++ [g] ->
  nth_error steps (List.length (returnedValuesFromFunc c)) = Some step ->
  Step.Func step = OFunc f ->
  Step.CompensateFunc step = OFunc g ->
  Linked cv steps c'
    (t ++ [EvAppendLog l None;
           EvAction (List.length (returnedValuesFromFunc c)) f [cv] (Returned res)]).
Proof.
  intros Hlink Hlen Hrv Htc Hstep Hf Hg j res' g' Hr Hgj.
  rewrite Hrv in Hr. rewrite Htc in Hgj.
  destruct (Nat.lt_ge_cases j (List.length (returnedValuesFromFunc c))) as [Hlt | Hge].
  - rewrite nth_error_app1 in Hr by exact Hlt.
    rewrite nth_error_app1 in Hgj by (rewrite Hlen; exact Hlt).
    destruct (Hlink j res' g' Hr Hgj) as (f' & step' & Hin & Hrest).
    exists f', step'. split; [ apply in_or_app; left; exact Hin | exact Hrest ].
  - assert (Hj : j = List.length (returnedValuesFromFunc c)).
    { assert (Hsome : nth_error (returnedValuesFromFunc c ++ [res]) j <> None)
        by congruence.
      apply nth_error_Some in Hsome. rewrite length_app in Hsome. simpl in Hsome. lia. }
    subst j.
    rewrite nth_error_app2, Nat.sub_diag in Hr by lia. injection Hr as <-.
    rewrite nth_error_app2 in Hgj by lia.
    rewrite Hlen, Nat.sub_diag in Hgj. injection Hgj as <-.
    exists f, step. split; [ | auto ].
    apply in_or_app. right. right. left. reflexivity.
Qed.

Lemma Forwarding_step c w w' t l f g res step :
  Forwarding cv steps (mkMachine c w t) ->
  Log.Type_ l = LogTypeSagaStepExec ->
  nth_error steps (List.length (returnedValuesFromFunc c)) = Some step ->
  Step.Func step = OFunc f ->
  Step.CompensateFunc step = OFunc g ->
  isReturnError res = inr None ->
  Forwarding cv steps
    (mkMachine
       (set_returnedValuesFromFunc (returnedValuesFromFunc c ++ [res])
          (set_toCompensate (toCompensate c ++ [g]) c))
       w'
       (t ++ [EvAppendLog l None;
              EvAction (List.length (returnedValuesFromFunc c)) f [cv] (Returned res)])).
Proof.
  intros (Hcfg & Hab & Herr & Hfwd & Hact & Hlen & Hlink) Hl Hstep Hf Hg Hres.
  cbn [coord trace] in *.
  split; [ exact Hcfg | ]. split; [ exact Hab | ]. split; [ exact Herr | ].
  cbn [coord trace]. split; [ | split; [ | split ] ].
  - apply Forall_app. split; [ exact Hfwd | ].
    constructor; [ right; exact Hl | ]. constructor; [ | constructor ].
    exists res. auto.
  - rewrite actionsOf_app, Hact. simpl. rewrite length_app, Nat.add_1_r, seq_S.
    reflexivity.
  - simpl. rewrite !length_app, Hlen. reflexivity.
  - apply (Linked_step c _ t l f g res step); auto.
Qed.

Lemma Forwarding_AboutToAbort e c w w' t l f g res step :
  Forwarding cv steps (mkMachine c w t) ->
  Log.Type_ l = LogTypeSagaStepExec ->
  nth_error steps (List.length (returnedValuesFromFunc c)) = Some step ->
  Step.Func step = OFunc f ->
  Step.CompensateFunc step = OFunc g ->
  isReturnError res = inr (Some e) ->
  AboutToAbort cv steps e
    (mkMachine
       (set_err (Some e)
          (set_returnedValuesFromFunc (returnedValuesFromFunc c ++ [res])
             (set_toCompensate (toCompensate c ++ [g]) c)))
       w'
       (t ++ [EvAppendLog l None;
              EvAction (List.length (returnedValuesFromFunc c)) f [cv] (Returned res)])).
Proof.
  intros (Hcfg & Hab & Herr & Hfwd & Hact & Hlen & Hlink) Hl Hstep Hf Hg Hres.
  cbn [coord trace] in *.
  split; [ exact Hcfg | ]. split; [ reflexivity | ].
  cbn [coord trace]. split; [ | split; [ | split ] ].
  - apply (Linked_step c _ t l f g res step); auto.
  - rewrite actionsOf_app, Hact. simpl. rewrite length_app, Nat.add_1_r, seq_S.
    reflexivity.
  - simpl. rewrite !length_app, Hlen. reflexivity.
  - exists (t ++ [EvAppendLog l None]), (List.length (returnedValuesFromFunc c)),
      f, [cv], res.
    split; [ rewrite <- app_assoc; reflexivity | ]. split; [ exact Hres | ].
    apply Forall_app. split; [ exact Hfwd | ].
    constructor; [ right; exact Hl | constructor ].
Qed.

Ltac no_compensation :=
  let Hin := fresh "Hin" in
  intros ? ? ? ? Hin; simpl in Hin;
  repeat (destruct Hin as [Hin | Hin]; [ discriminate Hin | ]); exact Hin.

Ltac halted_forward c w t H :=
  first
    [ apply (Forwarding_Halted c w t);
      [ exact H | solve [ apply H ] | no_compensation | simpl; auto ]
    | rewrite <- (app_nil_r t);
      apply (Forwarding_Halted c w t);
      [ exact H | solve [ apply H ] | no_compensation | simpl; auto ] ].

Lemma execStep_playing i (m : Machine World) :
  Playing cv steps m ->
  (aborted (coord m) = false -> i = List.length (returnedValuesFromFunc (coord m))) ->
  wp (execStep time_Now i)
     (fun _ m' =>
        Playing cv steps m'
        /\ (aborted (coord m') = false ->
            S i = List.length (returnedValuesFromFunc (coord m'))))
     (fun _ m' => Halted cv steps m') m.
Proof.
  intros H Hi. destruct m as [c w t]. cbn [coord] in Hi.
  destruct H as [Hfwd | (Hab & e & Hcomp)].
  - assert (Hcv : reflect_ValueOf (ctx c) = cv) by apply Hfwd.
    assert (Hsteps : Saga.steps (saga c) = steps) by apply Hfwd.
    assert (Hab : aborted c = false) by apply Hfwd.
    specialize (Hi Hab). subst i.
    unfold execStep, AppendLog, getFuncValue, callAction.
    wp_go; rewrite ?Hcv, ?Hsteps in *; try congruence.
    all: rewrite <- ?app_assoc; cbn [List.app].
    all: try solve [ halted_forward c w t Hfwd ].
    + eapply wp_mono;
        [ apply (abort_aborting e);
          eapply (Forwarding_AboutToAbort e c w); try eassumption; reflexivity
        | | auto ].
      intros ? m1 (Hab1 & Hc1). cbn beta. split.
      * right. split; [ exact Hab1 | exists e; exact Hc1 ].
      * intros Hn. congruence.
    + split.
      * left. eapply (Forwarding_step c w); try eassumption; reflexivity.
      * intros _. simpl. rewrite length_app. simpl. lia.
  - unfold execStep. wp_go; cbn [coord] in *; try congruence.
    split; [ right; split; [ exact Hab | exists e; exact Hcomp ] | ].
    intros Hn. congruence.
Qed.

Lemma playFrom_playing n : forall i (m : Machine World),
  Playing cv steps m ->
  (aborted (coord m) = false -> i = List.length (returnedValuesFromFunc (coord m))) ->
  wp (playFrom time_Now n i)
     (fun _ m' => Playing cv steps m')
     (fun _ m' => Halted cv steps m') m.
Proof.
  induction n as [|n IH]; intros i m H Hi.
  - apply wp_ret. exact H.
  - cbn [playFrom]. apply wp_bind.
    eapply wp_mono; [ apply execStep_playing; [ exact H | exact Hi ] | | auto ].
    intros ? m1 (H1 & Hi1). cbn beta. apply IH; assumption.
Qed.

Lemma Playing_Halted_log c w w' t l r :
  Playing cv steps (mkMachine c w t) ->
  Log.Type_ l = LogTypeSagaComplete ->
  Halted cv steps (mkMachine c w' (t ++ [EvAppendLog l r])).
Proof.
  intros [Hfwd | (_ & e & Hcomp)] Hl.
  - halted_forward c w t Hfwd.
  - apply (Compensating_Halted e). apply (Compensating_log e c w); auto.
Qed.

Lemma Playing_Played c w w' t l :
  Playing cv steps (mkMachine c w t) ->
  Log.Type_ l = LogTypeSagaComplete ->
  Played cv steps (mkResult (err c)) (mkMachine c w' (t ++ [EvAppendLog l None])).
Proof.
  intros H Hl.
  destruct (Playing_Halted_log c w w' t l None H Hl) as (Hjust & _ & Hact).
  split; [ reflexivity | ]. split; [ exact Hjust | ]. split; [ exact Hact | ].
  cbn [Err coord trace].
  destruct H as [Hfwd | (_ & e & Hcomp)].
  - assert (Herr : err c = None) by apply Hfwd. rewrite Herr.
    exists t, l. split; [ reflexivity | ]. split; [ exact Hl | apply Hfwd ].
  - assert (Herr : err c = Some e) by apply Hcomp. rewrite Herr.
    apply (Compensating_log e c w w' t l None) in Hcomp; [ apply Hcomp | auto ].
Qed.

End RunInvariant.

Section FreshRun.

Context {World : Type}.
Variable time_Now : World -> Z * World.

Lemma fresh_Forwarding id cx (sg : Saga.t World) store w l :
  Log.Type_ l = LogTypeStartSaga ->
  Forwarding (reflect_ValueOf cx) (Saga.steps sg)
    (mkMachine (fresh id cx sg store) w ([] ++ [EvAppendLog l None])).
Proof.
  intros Hl. split; [ split; reflexivity | ].
  repeat (split; [ reflexivity | ]). cbn [coord trace List.app].
  split; [ constructor; [ left; exact Hl | constructor ] | ].
  split; [ reflexivity | ]. split; [ reflexivity | ].
  intros j res g Hr. destruct j; discriminate Hr.
Qed.

Lemma Play_played id cx (sg : Saga.t World) store w :
  wp (Play time_Now)
     (fun r m' => Played (reflect_ValueOf cx) (Saga.steps sg) r m')
     (fun _ m' => Halted (reflect_ValueOf cx) (Saga.steps sg) m')
     (start (fresh id cx sg store) w).
Proof.
  unfold Play, AppendLog. wp_go.
  - split; [ | split ]; cbn [coord trace].
    + apply NoCompensation_Justified. intros i g ps r Hin. simpl in Hin.
      destruct Hin as [Hin | []]. discriminate Hin.
    + intros e' He'. discriminate He'.
    + exists 0. reflexivity.
  - eapply wp_mono;
      [ apply (playFrom_playing time_Now (reflect_ValueOf cx) (Saga.steps sg));
        [ left; apply fresh_Forwarding; reflexivity | reflexivity ]
      | | auto ].
    intros ? [cp wq tp] Hp. cbn beta. wp_go.
    + apply (Playing_Halted_log _ _ cp wq); [ exact Hp | reflexivity ].
    + apply (Playing_Played _ _ cp wq); [ exact Hp | reflexivity ].
Qed.

End FreshRun.


(** ** What the events of a phase are *)

Section Phases.

Context {World : Type}.

Lemma fwd_logTypes (t : list (Event World)) ty :
  Forall fwdEvent t -> List.In ty (logTypesOf t) ->
  ty = LogTypeStartSaga \/ ty = LogTypeSagaStepExec.
Proof.
  intros Hfwd Hin. unfold logTypesOf, logsOf in Hin.
  apply in_map_iff in Hin. destruct Hin as (l & <- & Hin).
  apply in_flat_map in Hin. destruct Hin as (ev & Hev & Hl).
  rewrite Forall_forall in Hfwd. specialize (Hfwd ev Hev).
  destruct ev; simpl in Hl; try contradiction.
  destruct Hl as [<- | []]. exact Hfwd.
Qed.

Lemma afterAbort_logTypes (t : list (Event World)) ty :
  Forall afterAbortEvent t -> List.In ty (logTypesOf t) ->
  ty = LogTypeSagaStepCompensate \/ ty = LogTypeSagaComplete.
Proof.
  intros Haft Hin. unfold logTypesOf, logsOf in Hin.
  apply in_map_iff in Hin. destruct Hin as (l & <- & Hin).
  apply in_flat_map in Hin. destruct Hin as (ev & Hev & Hl).
  rewrite Forall_forall in Haft. specialize (Haft ev Hev).
  destruct ev; simpl in Hl; try contradiction.
  destruct Hl as [<- | []]. exact Haft.
Qed.

Lemma afterAbort_no_action (t : list (Event World)) :
  Forall afterAbortEvent t -> actionsOf t = [].
Proof.
  induction 1 as [|ev t Hev _ IH]; [ reflexivity | ].
  unfold actionsOf in *. simpl. rewrite IH.
  destruct ev; simpl in *; [ reflexivity | contradiction | reflexivity ].
Qed.

Lemma fwd_no_compensation (t : list (Event World)) :
  Forall fwdEvent t -> compensationsOf t = [].
Proof.
  induction 1 as [|ev t Hev _ IH]; [ reflexivity | ].
  unfold compensationsOf in *. simpl. rewrite IH.
  destruct ev; simpl in *; [ reflexivity | reflexivity | contradiction ].
Qed.

Lemma fwd_actions_nil (t : list (Event World)) i f ps r :
  Forall fwdEvent t -> List.In (EvAction i f ps r) t ->
  exists res, r = Returned res /\ isReturnError res = inr None.
Proof.
  intros Hfwd Hin. rewrite Forall_forall in Hfwd. exact (Hfwd _ Hin).
Qed.

End Phases.



(** ** Compensation errors *)

Section CompensationErrors.

Context {World : Type}.
Variable time_Now : World -> Z * World.

Lemma NoCompensationError_nil : NoCompensationError (@nil (Event World)).
Proof. intros i g ps res e H. inversion H. Qed.

Lemma NoCompensationError_snoc (t : list (Event World)) ev :
  NoCompensationError t ->
  (forall i g ps res e,
      ev = EvCompensate i g ps (Returned res) -> isReturnError res <> inr (Some e)) ->
  NoCompensationError (t ++ [ev]).
Proof.
  intros Ht Hev i g ps res e Hin. apply in_app_or in Hin.
  destruct Hin as [Hin | [Heq | []]].
  - exact (Ht i g ps res e Hin).
  - exact (Hev i g ps res e Heq).
Qed.

Ltac other_event :=
  apply NoCompensationError_snoc; [ assumption | intros; discriminate ].

Lemma playFrom_compensation_errors n i m :
  NoCompensationError (trace m) ->
  wp (playFrom time_Now n i) (fun _ m' => NoCompensationError (trace m'))
     (fun v m' => haltedOnCompensation v (trace m')) m.
Proof.
  apply (playFrom_trace time_Now NoCompensationError haltedOnCompensation); intros.
  - other_event.
  - left. other_event.
  - other_event.
  - left. other_event.
  - apply NoCompensationError_snoc; [ assumption | ].
    intros ? ? ? ? ? Heq. injection Heq as -> -> -> ->. congruence.
  - right. exists t, i0, f, ps, res, e. auto.
  - left. apply NoCompensationError_snoc; [ assumption | ].
    intros ? ? ? ? ? Heq. injection Heq as -> -> -> ->. congruence.
  - left. other_event.
  - left. assumption.
Qed.

Lemma Play_compensation_errors m :
  NoCompensationError (trace m) ->
  wp (Play time_Now) (fun _ m' => NoCompensationError (trace m'))
     (fun v m' => haltedOnCompensation v (trace m')) m.
Proof.
  intros H. unfold Play, AppendLog. wp_go.
  - left. other_event.
  - eapply wp_mono; [ apply playFrom_compensation_errors; simpl; other_event | | auto ].
    intros ? m' H'. cbn beta. wp_go.
    + left. other_event.
    + other_event.
Qed.

End CompensationErrors.

(** C5. In every run of a fresh coordinator in which a compensation
    returns a non-nil error, [Play] returns no Result: it panics with
    that error, and the call of that compensation is the last call of
    the run.  So when [Play] returns a Result, no compensation returned
    an error, and the error of the Result is nil when every action
    returned a nil error, and otherwise the error that an action
    returned, the first to fail and the last to be invoked. *)
Theorem compensation_error_is_fatal {World : Type}
    (time_Now : World -> Z * World) (id : string) (cx : option Context)
    (sg : Saga.t World) (store : Store World) (w : World) :
  let out := Play time_Now (start (fresh id cx sg store) w) in
  (forall i g ps res e,
      List.In (EvCompensate i g ps (Returned res)) (trace (final out)) ->
      isReturnError res = inr (Some e) ->
      exists t m',
        out = Panic (PanicError e) m'
        /\ trace m' = t ++ [EvCompensate i g ps (Returned res)])
  /\ (forall r m',
        out = Ret r m' ->
        NoCompensationError (trace m')
        /\ match Err r with
           | None =>
               forall i f ps r',
                 List.In (EvAction i f ps r') (trace m') ->
                 exists res, r' = Returned res /\ isReturnError res = inr None
           | Some e =>
               exists t1 k f ps res t2,
                 trace m' = t1 ++ EvAction k f ps (Returned res) :: t2
                 /\ isReturnError res = inr (Some e)
                 /\ Forall fwdEvent t1
                 /\ actionsOf t2 = []
           end).
Proof.
  intros out.
  pose proof (Play_compensation_errors time_Now (start (fresh id cx sg store) w)
                (NoCompensationError_nil)) as Hce.
  pose proof (Play_played time_Now id cx sg store w) as Hpl.
  unfold wp in Hce, Hpl. fold out in Hce, Hpl.
  destruct out as [r m' | v m']; split.
  - intros i g ps res e Hin He. exfalso. exact (Hce i g ps res e Hin He).
  - intros r0 m0 Heq. injection Heq as <- <-. split; [ exact Hce | ].
    destruct Hpl as (_ & _ & _ & Hshape).
    destruct (Err r) as [e|].
    + destruct Hshape as (t1 & k & f & ps & res & la & lr & t2 & Ht & Hres & Hfwd & Hla
                            & _ & Haft).
      exists t1, k, f, ps, res, (EvAppendLog la lr :: t2).
      split; [ exact Ht | ]. split; [ exact Hres | ]. split; [ exact Hfwd | ].
      change (actionsOf (EvAppendLog la lr :: t2)) with (actionsOf t2).
      apply afterAbort_no_action. exact Haft.
    + destruct Hshape as (t & l & Ht & _ & Hfwd).
      intros i f ps r' Hin. rewrite Ht in Hin. apply in_app_or in Hin.
      destruct Hin as [Hin | [Hin | []]]; [ | discriminate Hin ].
      exact (fwd_actions_nil t i f ps r' Hfwd Hin).
  - intros i g ps res e Hin He. simpl in Hin.
    destruct Hce as [Hce | (t & i' & g' & ps' & res' & e' & Ht & Hnc & Hres & Hv)].
    + exfalso. exact (Hce i g ps res e Hin He).
    + rewrite Ht in Hin. apply in_app_or in Hin.
      destruct Hin as [Hin | [Heq | []]].
      * exfalso. exact (Hnc i g ps res e Hin He).
      * injection Heq as -> -> -> ->.
        assert (e' = e) by congruence. subst e' v.
        exists t, m'. auto.
  - intros r0 m0 Heq. discriminate Heq.
Qed.

(** The jammed saga: the compensation of step 0 returns an error, and the
    run panics with it. *)
Lemma compensation_error_is_fatal_witness :
  exists t m',
    Play Example.clock
      (start (fresh "run-1" Example.background Example.jammed Example.memStore) [])
    = Panic (PanicError (errors_New "cannot release")) m'
    /\ trace m'
       = t ++ [EvCompensate 0 Example.stuck [VContext 0; VInt 42]
                 (Returned [VError (Some (errors_New "cannot release"))])].
Proof.
  apply (proj1 (compensation_error_is_fatal Example.clock "run-1"
                  Example.background Example.jammed Example.memStore [])).
  - vm_compute. auto 20.
  - reflexivity.
Defined.

(** C8. In every run of a fresh coordinator that aborts (the coordinator
    recorded the error [e] of an action), exactly one event of type
    [LogTypeSagaAbort] is given to the store; its step number is the
    number of actions invoked in the run, the action that failed, the
    last of them, included; and it comes before every event of type
    [LogTypeSagaStepCompensate] and every call of a compensation. *)
Theorem abort_event_is_unique_and_counts {World : Type}
    (time_Now : World -> Z * World) (id : string) (cx : option Context)
    (sg : Saga.t World) (store : Store World) (w : World) (e : error) :
  let m' := final (Play time_Now (start (fresh id cx sg store) w)) in
  err (coord m') = Some e ->
  exists t1 la r t2,
    trace m' = t1 ++ EvAppendLog la r :: t2
    /\ Log.Type_ la = LogTypeSagaAbort
    /\ Log.StepNumber la = Some (List.length (actionsOf t1))
    /\ actionsOf (trace m') = actionsOf t1
    /\ (exists t0 k f ps res,
          t1 = t0 ++ [EvAction k f ps (Returned res)]
          /\ isReturnError res = inr (Some e))
    /\ ~ List.In LogTypeSagaAbort (logTypesOf t1)
    /\ ~ List.In LogTypeSagaAbort (logTypesOf t2)
    /\ ~ List.In LogTypeSagaStepCompensate (logTypesOf t1)
    /\ compensationsOf t1 = [].
Proof.
  intros m' Herr.
  assert (H : AbortShape e (trace m')).
  { assert (Hh : Halted (reflect_ValueOf cx) (Saga.steps sg) m').
    { apply (wp_final (Play time_Now)). eapply wp_mono.
      - apply (Play_played time_Now id cx sg store w).
      - intros res m1 (Her & Hjust & Hact & Hshape).
        split; [ exact Hjust | ]. split; [ | exact Hact ].
        intros e1 He1. rewrite <- Her in He1. rewrite He1 in Hshape. exact Hshape.
      - auto. }
    apply Hh. exact Herr. }
  destruct H as (t0 & k & f & ps & res & la & r & t2 & Ht & Hres & Hfwd & Hla & Hn & Haft).
  exists (t0 ++ [EvAction k f ps (Returned res)]), la, r, t2.
  split; [ rewrite Ht, <- app_assoc; reflexivity | ].
  split; [ exact Hla | ].
  split; [ rewrite Hn, actionsOf_snoc_action, length_app, Nat.add_1_r; reflexivity | ].
  split.
  { rewrite Ht.
    change (t0 ++ EvAction k f ps (Returned res) :: EvAppendLog la r :: t2)
      with (t0 ++ [EvAction k f ps (Returned res)] ++ EvAppendLog la r :: t2).
    rewrite app_assoc, actionsOf_app.
    change (actionsOf (EvAppendLog la r :: t2)) with (actionsOf t2).
    rewrite (afterAbort_no_action t2 Haft). apply app_nil_r. }
  split; [ exists t0, k, f, ps, res; auto | ].
  assert (Hty1 : forall ty, List.In ty (logTypesOf (t0 ++ [EvAction k f ps (Returned res)]))
                            -> ty = LogTypeStartSaga \/ ty = LogTypeSagaStepExec).
  { intros ty Hin. rewrite logTypesOf_app in Hin.
    change (logTypesOf [EvAction k f ps (Returned res)]) with (@nil LogType) in Hin.
    rewrite app_nil_r in Hin. exact (fwd_logTypes t0 ty Hfwd Hin). }
  split; [ intros Hin; destruct (Hty1 _ Hin); discriminate | ].
  split; [ intros Hin; destruct (afterAbort_logTypes t2 _ Haft Hin); discriminate | ].
  split; [ intros Hin; destruct (Hty1 _ Hin); discriminate | ].
  rewrite compensationsOf_app, (fwd_no_compensation t0 Hfwd). reflexivity.
Qed.

(** The booking saga aborts at its second step: the abort event carries 2
    and comes after the two actions. *)
Lemma abort_event_is_unique_and_counts_witness :
  exists t1 la r t2,
    trace (final (Play Example.clock
                    (start (fresh "run-1" Example.background Example.booking
                                  Example.memStore) [])))
    = t1 ++ EvAppendLog la r :: t2
    /\ Log.Type_ la = LogTypeSagaAbort
    /\ Log.StepNumber la = Some (List.length (actionsOf t1))
    /\ ~ List.In LogTypeSagaAbort (logTypesOf t2).
Proof.
  destruct (abort_event_is_unique_and_counts Example.clock "run-1"
              Example.background Example.booking Example.memStore []
              (errors_New "card declined"))
    as (t1 & la & r & t2 & Ht & Hla & Hn & _ & _ & _ & H2 & _).
  - vm_compute. reflexivity.
  - exists t1, la, r, t2. auto.
Defined.

(** ** The audit trail of a run *)

Section AuditTrail.

Context {World : Type}.
Variable time_Now : World -> Z * World.
Variable c0 : ExecutionCoordinator World.

Lemma WriteAhead_nil : WriteAhead (@nil (Event World)).
Proof. intros t1 t2 ev H. destruct t1; discriminate H. Qed.

Lemma WriteAhead_snoc_log (t : list (Event World)) l r :
  WriteAhead t -> WriteAhead (t ++ [EvAppendLog l r]).
Proof.
  intros Ht t1 t2 ev Heq. apply snoc_split in Heq.
  destruct Heq as [(_ & _ & ->) | (t2' & _ & Heq)]; [ exact I | ].
  exact (Ht t1 t2' ev Heq).
Qed.

Lemma WriteAhead_snoc_action (t : list (Event World)) l i f ps r :
  WriteAhead (t ++ [EvAppendLog l None]) ->
  Log.Type_ l = LogTypeSagaStepExec ->
  Log.StepNumber l = Some i ->
  WriteAhead ((t ++ [EvAppendLog l None]) ++ [EvAction i f ps r]).
Proof.
  intros Ht Hl Hn t1 t2 ev Heq. apply snoc_split in Heq.
  destruct Heq as [(_ & -> & ->) | (t2' & _ & Heq)].
  - exists t, l. auto.
  - exact (Ht t1 t2' ev Heq).
Qed.

Lemma WriteAhead_snoc_compensate (t : list (Event World)) l i f ps r :
  WriteAhead (t ++ [EvAppendLog l None]) ->
  Log.Type_ l = LogTypeSagaStepCompensate ->
  Log.StepNumber l = Some i ->
  WriteAhead ((t ++ [EvAppendLog l None]) ++ [EvCompensate i f ps r]).
Proof.
  intros Ht Hl Hn t1 t2 ev Heq. apply snoc_split in Heq.
  destruct Heq as [(_ & -> & ->) | (t2' & _ & Heq)].
  - exists t, l. auto.
  - exact (Ht t1 t2' ev Heq).
Qed.

Lemma check_validated (f : FuncValue World) :
  (List.length (In f) <? 1)%nat
  || negb (GoType_eqb (nth 0 (In f) TContext) TContext) = false ->
  validated f.
Proof.
  unfold validated, wellFormed. destruct (In f) as [|ty tys]; simpl.
  - discriminate.
  - destruct (GoType_eqb ty TContext); [ reflexivity | discriminate ].
Qed.

Lemma Audited_world c w w' t :
  Audited c0 (mkMachine c w t) -> Audited c0 (mkMachine c w' t).
Proof. exact (fun H => H). Qed.

Lemma Audited_log c w w' t l r :
  Audited c0 (mkMachine c w t) ->
  wellStamped c0 l ->
  Audited c0 (mkMachine c w' (t ++ [EvAppendLog l r])).
Proof.
  intros (Hcfg & Hval & Haud & Hwa) Hl. cbn [coord trace] in *.
  split; [ exact Hcfg | ]. split; [ exact Hval | ]. cbn [coord trace]. split.
  - apply Forall_app. split; [ exact Haud | constructor; [ exact Hl | constructor ] ].
  - apply WriteAhead_snoc_log. exact Hwa.
Qed.

Lemma Audited_action c w w' t l i f ps r :
  Audited c0 (mkMachine c w (t ++ [EvAppendLog l None])) ->
  Log.Type_ l = LogTypeSagaStepExec ->
  Log.StepNumber l = Some i ->
  audited c0 (EvAction i f ps r) ->
  Audited c0 (mkMachine c w' ((t ++ [EvAppendLog l None]) ++ [EvAction i f ps r])).
Proof.
  intros (Hcfg & Hval & Haud & Hwa) Hl Hn Hev. cbn [coord trace] in *.
  split; [ exact Hcfg | ]. split; [ exact Hval | ]. cbn [coord trace]. split.
  - apply Forall_app. split; [ exact Haud | constructor; [ exact Hev | constructor ] ].
  - apply WriteAhead_snoc_action; assumption.
Qed.

Lemma Audited_compensate c w w' t l i g ps r :
  Audited c0 (mkMachine c w (t ++ [EvAppendLog l None])) ->
  Log.Type_ l = LogTypeSagaStepCompensate ->
  Log.StepNumber l = Some i ->
  validated g ->
  Audited c0 (mkMachine c w' ((t ++ [EvAppendLog l None]) ++ [EvCompensate i g ps r])).
Proof.
  intros (Hcfg & Hval & Haud & Hwa) Hl Hn Hev. cbn [coord trace] in *.
  split; [ exact Hcfg | ]. split; [ exact Hval | ]. cbn [coord trace]. split.
  - apply Forall_app. split; [ exact Haud | constructor; [ exact Hev | constructor ] ].
  - apply WriteAhead_snoc_compensate; assumption.
Qed.

Lemma Audited_coord c c' w t :
  Audited c0 (mkMachine c w t) ->
  sameConfig c0 c' ->
  Forall validated (toCompensate c') ->
  Audited c0 (mkMachine c' w t).
Proof.
  intros (_ & _ & Haud & Hwa) Hcfg Hval. repeat split; try assumption; apply Hcfg.
Qed.

Lemma wellStamped_step c i step now ty :
  sameConfig c0 c ->
  nth_error (Saga.steps (saga c)) i = Some step ->
  ty = LogTypeSagaStepExec \/ ty = LogTypeSagaStepCompensate ->
  wellStamped c0
    (Log.mk (ExecutionID c) (Saga.Name (saga c)) now ty (Some i) (Some (Step.Name step))).
Proof.
  intros (Hsaga & _ & _ & Hid) Hnth Hty. rewrite Hsaga in Hnth.
  unfold wellStamped. cbn. rewrite Hsaga, Hid.
  split; [ reflexivity | ]. split; [ reflexivity | ].
  destruct Hty as [-> | ->]; exists i, step; auto.
Qed.

Lemma wellStamped_plain c now ty n :
  sameConfig c0 c ->
  (ty = LogTypeSagaAbort /\ n <> None)
  \/ ((ty = LogTypeStartSaga \/ ty = LogTypeSagaComplete) /\ n = None) ->
  wellStamped c0 (Log.mk (ExecutionID c) (Saga.Name (saga c)) now ty n None).
Proof.
  intros (Hsaga & _ & _ & Hid) Hty.
  unfold wellStamped. cbn. rewrite Hsaga, Hid.
  split; [ reflexivity | ]. split; [ reflexivity | ].
  destruct Hty as [(-> & Hn) | ([-> | ->] & ->)]; auto.
  split; [ reflexivity | ]. destruct n as [k|]; [ exists k; reflexivity | congruence ].
Qed.

Ltac audit w Hcfg :=
  cbn [coord world trace] in *;
  repeat first
    [ assumption
    | apply (Audited_compensate _ w); [ | reflexivity | reflexivity | ]
    | apply (Audited_action _ w); [ | reflexivity | reflexivity | ]
    | apply (Audited_log _ w);
      [ | first [ apply wellStamped_step; [ exact Hcfg | assumption | auto ]
                | apply wellStamped_plain; [ exact Hcfg | ] ] ]
    | apply (Audited_world _ w); assumption ].

Lemma compensateStep_audited i (m : Machine World) :
  Audited c0 m ->
  wp (compensateStep time_Now i) (fun _ => Audited c0) (fun _ => Audited c0) m.
Proof.
  intros H. destruct m as [c w t].
  assert (Hcfg : sameConfig c0 c) by apply H.
  assert (Hval : Forall validated (toCompensate c)) by apply H.
  unfold compensateStep, AppendLog, callCompensate.
  wp_go; audit w Hcfg.
  all: rewrite Forall_forall in Hval; apply Hval; eapply nth_error_In; eassumption.
Qed.

Lemma compensateFrom_audited n : forall (m : Machine World),
  Audited c0 m ->
  wp (compensateFrom time_Now n) (fun _ => Audited c0) (fun _ => Audited c0) m.
Proof.
  induction n as [|n IH]; intros m H.
  - apply wp_ret. exact H.
  - cbn [compensateFrom]. apply wp_bind.
    eapply wp_mono; [ apply compensateStep_audited; exact H | | auto ].
    intros ? m1 H1. cbn beta. apply IH. exact H1.
Qed.

Lemma abort_audited (m : Machine World) :
  Audited c0 m ->
  wp (abort time_Now) (fun _ => Audited c0) (fun _ => Audited c0) m.
Proof.
  intros H. destruct m as [c w t].
  assert (Hcfg : sameConfig c0 c) by apply H.
  assert (Hval : Forall validated (toCompensate c)) by apply H.
  unfold abort, AppendLog. wp_go.
  - audit w Hcfg. left. split; [ reflexivity | discriminate ].
  - apply compensateFrom_audited.
    apply (Audited_coord c _ w1); [ | exact Hcfg | exact Hval ].
    audit w Hcfg. left. split; [ reflexivity | discriminate ].
Qed.

Lemma audited_action c i step f r :
  sameConfig c0 c ->
  nth_error (Saga.steps (saga c)) i = Some step ->
  Step.Func step = OFunc f ->
  (List.length (In f) <? 1)%nat
  || negb (GoType_eqb (nth 0 (In f) TContext) TContext) = false ->
  audited c0 (EvAction i f [reflect_ValueOf (ctx c)] r).
Proof.
  intros (Hsaga & Hctx & _) Hnth Hf Hchk. rewrite Hsaga in Hnth. rewrite Hctx.
  split; [ reflexivity | ]. split; [ apply check_validated; exact Hchk | ].
  exists step. auto.
Qed.

Lemma execStep_audited i (m : Machine World) :
  Audited c0 m ->
  wp (execStep time_Now i) (fun _ => Audited c0) (fun _ => Audited c0) m.
Proof.
  intros H. destruct m as [c w t].
  assert (Hcfg : sameConfig c0 c) by apply H.
  assert (Hval : Forall validated (toCompensate c)) by apply H.
  unfold execStep, AppendLog, getFuncValue, callAction.
  wp_go.
  all: try match goal with
       | |- wp (abort _) _ _ _ => apply abort_audited
       end.
  all: try match goal with
       | |- Audited _ (mkMachine (set_returnedValuesFromFunc _ _) _ _) =>
           apply (Audited_coord c)
       | |- Audited _ (mkMachine (set_err _ _) _ _) =>
           apply (Audited_coord c)
       end.
  all: try solve [ audit w Hcfg; eapply audited_action; eassumption ].
  all: try exact Hcfg.
  all: simpl; apply Forall_app; (split; [ exact Hval | ]);
    (constructor; [ apply check_validated; assumption | constructor ]).
Qed.

Lemma playFrom_audited n : forall i (m : Machine World),
  Audited c0 m ->
  wp (playFrom time_Now n i) (fun _ => Audited c0) (fun _ => Audited c0) m.
Proof.
  induction n as [|n IH]; intros i m H.
  - apply wp_ret. exact H.
  - cbn [playFrom]. apply wp_bind.
    eapply wp_mono; [ apply execStep_audited; exact H | | auto ].
    intros ? m1 H1. cbn beta. apply IH. exact H1.
Qed.

Lemma Play_audited (m : Machine World) :
  Audited c0 m ->
  wp (Play time_Now) (fun _ => Audited c0) (fun _ => Audited c0) m.
Proof.
  intros H. destruct m as [c w t].
  assert (Hcfg : sameConfig c0 c) by apply H.
  unfold Play, AppendLog. wp_go.
  - audit w Hcfg. right. auto.
  - eapply wp_mono;
      [ apply playFrom_audited; audit w Hcfg; right; auto | | auto ].
    intros ? [cp wq tp] Hp. cbn beta.
    assert (Hcfgp : sameConfig c0 cp) by apply Hp.
    wp_go; audit wq Hcfgp; right; auto.
Qed.

End AuditTrail.

(** * Further properties of the coordinator *)

Lemma fresh_Audited {World : Type} id cx (sg : Saga.t World) store w :
  Audited (fresh id cx sg store) (start (fresh id cx sg store) w).
Proof.
  split; [ apply sameConfig_refl | ]. split; [ constructor | ].
  split; [ constructor | apply WriteAhead_nil ].
Qed.

Lemma Play_final_Audited {World : Type} (time_Now : World -> Z * World)
    id cx (sg : Saga.t World) store w :
  Audited (fresh id cx sg store)
    (final (Play time_Now (start (fresh id cx sg store) w))).
Proof.
  apply (wp_final (Play time_Now)).
  apply Play_audited. apply fresh_Audited.
Qed.

(** X7. Every event given to the log store in a run of a fresh coordinator
    carries the execution identity of the coordinator and the name of the
    saga; a step event and a compensation event carry the index and the
    name of one step of the saga; the abort event carries a number and no
    step name; the start and completion events carry neither. *)
Theorem every_event_is_stamped {World : Type} (time_Now : World -> Z * World)
    (id : string) (cx : option Context) (sg : Saga.t World) (store : Store World)
    (w : World) (l : Log.t) (r : option error) :
  List.In (EvAppendLog l r)
          (trace (final (Play time_Now (start (fresh id cx sg store) w)))) ->
  Log.ExecutionID l = id
  /\ Log.Name l = Saga.Name sg
  /\ match Log.Type_ l with
     | LogTypeSagaStepExec | LogTypeSagaStepCompensate =>
         exists i step,
           Log.StepNumber l = Some i
           /\ nth_error (Saga.steps sg) i = Some step
           /\ Log.StepName l = Some (Step.Name step)
     | LogTypeSagaAbort =>
         Log.StepName l = None /\ exists n, Log.StepNumber l = Some n
     | LogTypeStartSaga | LogTypeSagaComplete =>
         Log.StepNumber l = None /\ Log.StepName l = None
     end.
Proof.
  intros Hin.
  destruct (Play_final_Audited time_Now id cx sg store w) as (_ & _ & Haud & _).
  rewrite Forall_forall in Haud. exact (Haud _ Hin).
Qed.

(** The compensation event of step 1 of the booking saga carries the
    identity of the run, the name of the saga and the name of the step. *)
Lemma every_event_is_stamped_witness :
  Log.ExecutionID
    (Log.mk "run-1" "booking" 4 LogTypeSagaStepCompensate (Some 1) (Some "charge"))
  = "run-1"
  /\ exists i step,
       Some 1 = Some i
       /\ nth_error (Saga.steps Example.booking) i = Some step
       /\ Some "charge" = Some (Step.Name step).
Proof.
  destruct (every_event_is_stamped Example.clock "run-1" Example.background
              Example.booking Example.memStore []
              (Log.mk "run-1" "booking" 4 LogTypeSagaStepCompensate (Some 1) (Some "charge"))
              None)
    as (Hid & _ & Hstep).
  - vm_compute. auto 20.
  - split; [ exact Hid | exact Hstep ].
Defined.

(** X8. In a run of a fresh coordinator only callables that passed
    [getFuncValue] are called: every action called is the function
    registered as the action of its step, takes the context as its first
    parameter and is called on the context alone; every compensation
    called takes the context as its first parameter. *)
Theorem only_validated_callables_are_called {World : Type}
    (time_Now : World -> Z * World) (id : string) (cx : option Context)
    (sg : Saga.t World) (store : Store World) (w : World) (ev : Event World) :
  List.In ev (trace (final (Play time_Now (start (fresh id cx sg store) w)))) ->
  match ev with
  | EvAppendLog _ _ => True
  | EvAction i f ps _ =>
      ps = [reflect_ValueOf cx]
      /\ wellFormed (OFunc f) = true
      /\ exists step,
           nth_error (Saga.steps sg) i = Some step /\ Step.Func step = OFunc f
  | EvCompensate _ g _ _ => wellFormed (OFunc g) = true
  end.
Proof.
  intros Hin.
  destruct (Play_final_Audited time_Now id cx sg store w) as (_ & _ & Haud & _).
  rewrite Forall_forall in Haud. specialize (Haud _ Hin).
  destruct ev; [ exact I | exact Haud | exact Haud ].
Qed.

(** The action of step 1 of the booking saga is called on the context
    alone. *)
Lemma only_validated_callables_are_called_witness :
  [VContext 0] = [reflect_ValueOf Example.background]
  /\ wellFormed (OFunc Example.charge) = true.
Proof.
  destruct (only_validated_callables_are_called Example.clock "run-1"
              Example.background Example.booking Example.memStore []
              (EvAction 1 Example.charge [VContext 0]
                 (Returned [VError (Some (errors_New "card declined"))])))
    as (Hps & Hwf & _).
  - vm_compute. auto 20.
  - split; [ exact Hps | exact Hwf ].
Defined.

(** X9. In a run of a fresh coordinator every call of a callable comes right
    after the successful append of the event that announces it: the call
    of the action of step [i] right after the append of the step event of
    index [i], the call of a compensation right after the append of the
    compensation event of the same index.  No callable is called when the
    append of its event failed. *)
Theorem events_are_written_ahead {World : Type}
    (time_Now : World -> Z * World) (id : string) (cx : option Context)
    (sg : Saga.t World) (store : Store World) (w : World)
    (t1 t2 : list (Event World)) (ev : Event World) :
  trace (final (Play time_Now (start (fresh id cx sg store) w))) = t1 ++ ev :: t2 ->
  match ev with
  | EvAppendLog _ _ => True
  | EvAction i _ _ _ =>
      exists t0 l,
        t1 = t0 ++ [EvAppendLog l None]
        /\ Log.Type_ l = LogTypeSagaStepExec /\ Log.StepNumber l = Some i
  | EvCompensate i _ _ _ =>
      exists t0 l,
        t1 = t0 ++ [EvAppendLog l None]
        /\ Log.Type_ l = LogTypeSagaStepCompensate /\ Log.StepNumber l = Some i
  end.
Proof.
  intros Heq.
  destruct (Play_final_Audited time_Now id cx sg store w) as (_ & _ & _ & Hwa).
  exact (Hwa t1 t2 ev Heq).
Qed.

(** The compensation of step 0 of the booking saga is called right after
    the append of its compensation event. *)
Lemma events_are_written_ahead_witness :
  exists t0 l,
    firstn 9 (trace (final (Example.run Example.booking Example.memStore)))
    = t0 ++ [EvAppendLog l None]
    /\ Log.Type_ l = LogTypeSagaStepCompensate /\ Log.StepNumber l = Some 0.
Proof.
  apply (events_are_written_ahead Example.clock "run-1" Example.background
           Example.booking Example.memStore []
           (firstn 9 (trace (final (Example.run Example.booking Example.memStore))))
           (skipn 10 (trace (final (Example.run Example.booking Example.memStore))))
           (EvCompensate 0 Example.release [VContext 0; VInt 42]
              (Returned [VError None]))).
  vm_compute. reflexivity.
Defined.

(** ** The helpers of the dispatch *)

(** X1. [addParams] appends to [values] the returned values less the last one:
    all of them but the trailing error slot.  With no returned value or
    one only, [values] is returned as it is. *)
Theorem addParams_drops_the_last_result (values returned : list Value) :
  addParams values returned = values ++ removelast returned
  /\ List.length (addParams values returned)
     = List.length values + (List.length returned - 1)
  /\ (List.length returned <= 1 -> addParams values returned = values).
Proof.
  split; [ apply addParams_removelast | ]. split.
  - rewrite addParams_removelast, length_app, removelast_firstn_len, length_firstn.
    lia.
  - intros Hlen. unfold addParams.
    destruct (1 <? List.length returned)%nat eqn:Hlt; [ | reflexivity ].
    apply Nat.ltb_lt in Hlt. lia.
Qed.

Lemma isReturnError_last (l : list Value) (v : Value) :
  isReturnError (l ++ [v]) = isReturnError [v].
Proof. unfold isReturnError. rewrite rev_app_distr. reflexivity. Qed.

(** X2. [isReturnError] looks at the last result only: no result at all is no
    error, and the results are an error [e] exactly when the last of them
    is the non-nil error [e]. *)
Theorem isReturnError_reads_the_last_result :
  isReturnError [] = inr None
  /\ (forall l v, isReturnError (l ++ [v]) = isReturnError [v])
  /\ (forall res e,
        isReturnError res = inr (Some e) <-> exists l, res = l ++ [VError (Some e)]).
Proof.
  split; [ reflexivity | ]. split; [ exact isReturnError_last | ].
  intros res e. split.
  - intros H. destruct res as [|x res'] using rev_ind; [ discriminate H | ].
    clear IHres'. rewrite isReturnError_last in H. exists res'.
    destruct x as [ | c | [e'|] | n | s | b | elem [a|] ]; try discriminate H.
    injection H as ->. reflexivity.
  - intros (l & ->). rewrite isReturnError_last. reflexivity.
Qed.

(** X3. [getFuncValue] returns exactly on the objects that are functions whose
    first declared parameter is the context type, and returns that
    function; on any other object it panics with the configuration
    error; in both cases it makes no call and leaves the machine as it
    is. *)
Theorem getFuncValue_accepts_exactly_the_well_formed {World : Type}
    (obj : Object World) (m : Machine World) :
  match getFuncValue obj m with
  | Ret f m' => obj = OFunc f /\ wellFormed obj = true /\ m' = m
  | Panic v m' =>
      wellFormed obj = false /\ v = PanicString (configError obj) /\ m' = m
  end.
Proof.
  destruct (wellFormed obj) eqn:Hwf.
  - apply (wp_getFuncValue_ok obj
             (fun f m' => obj = OFunc f /\ true = true /\ m' = m)
             (fun v m' => true = false /\ v = PanicString (configError obj) /\ m' = m)
             m Hwf).
    intros f Hf. auto.
  - apply (wp_getFuncValue_bad obj
             (fun f m' => obj = OFunc f /\ false = true /\ m' = m)
             (fun v m' => false = false /\ v = PanicString (configError obj) /\ m' = m)
             m Hwf).
    auto.
Qed.

(** ** What the coordinator never does *)

(** X4. Once the flag [aborted] is set, the loop of [Play] goes no further:
    whatever the number of iterations left and the index, [execStep]
    appends nothing, calls nothing and leaves the machine as it is. *)
Theorem aborted_coordinator_goes_no_further {World : Type}
    (time_Now : World -> Z * World) (m : Machine World) (n i : nat) :
  aborted (coord m) = true ->
  execStep time_Now i m = Ret tt m /\ playFrom time_Now n i m = Ret tt m.
Proof.
  intros Hab. split; [ | apply playFrom_aborted; exact Hab ].
  unfold execStep, bind, getCoord. rewrite Hab. reflexivity.
Qed.

Lemma aborted_coordinator_goes_no_further_witness :
  playFrom Example.clock 3 0
    (start (set_aborted true
              (fresh "run-1" Example.background Example.booking Example.memStore)) [])
  = Ret tt
      (start (set_aborted true
                (fresh "run-1" Example.background Example.booking Example.memStore)) []).
Proof.
  apply (aborted_coordinator_goes_no_further Example.clock
           (start (set_aborted true
                     (fresh "run-1" Example.background Example.booking Example.memStore))
                  [])
           3 0).
  reflexivity.
Defined.

(** X5. [Play] never writes the context, the store or the execution identity
    of the coordinator: they are after the run, returned or halted, what
    they were before. *)
Theorem Play_keeps_the_configuration {World : Type} (time_Now : World -> Z * World)
    (c : ExecutionCoordinator World) (w : World) :
  let after := coord (final (Play time_Now (start c w))) in
  ctx after = ctx c
  /\ logStore after = logStore c
  /\ ExecutionID after = ExecutionID c.
Proof.
  intros after.
  assert (H : sameConfig c after).
  { unfold after. apply (wp_final (Play time_Now) (fun m' => sameConfig c (coord m'))).
    apply (Play_frame time_Now c). apply sameConfig_refl. }
  destruct H as (_ & Hctx & Hstore & Hid). auto.
Qed.

(** X6. A coordinator whose flag [aborted] is set is spent: played again, it
    appends the start and completion events only, calls no action and no
    compensation, and returns the error it already held. *)
Theorem aborted_coordinator_replays_nothing {World : Type}
    (time_Now : World -> Z * World) (c : ExecutionCoordinator World) (w : World) :
  aborted c = true ->
  let out := Play time_Now (start c w) in
  actionsOf (trace (final out)) = []
  /\ compensationsOf (trace (final out)) = []
  /\ (forall r m',
        out = Ret r m' ->
        Err r = err c
        /\ logTypesOf (trace m') = [LogTypeStartSaga; LogTypeSagaComplete]).
Proof.
  intros Hab out.
  assert (H : wp (Play time_Now)
                (fun r m' =>
                   Err r = err c
                   /\ skeleton (trace m')
                      = [TagLog LogTypeStartSaga None; TagLog LogTypeSagaComplete None])
                (fun _ m' =>
                   actionsOf (trace m') = [] /\ compensationsOf (trace m') = [])
                (start c w)).
  { unfold Play, AppendLog. wp_go.
    - split; reflexivity.
    - unfold wp at 1. rewrite playFrom_aborted by exact Hab.
      wp_go; split; reflexivity. }
  unfold wp in H. fold out in H.
  destruct out as [r m' | v m']; cbn [final].
  - destruct H as (Herr & Hsk).
    rewrite actionsOf_skeleton, compensationsOf_skeleton, Hsk.
    split; [ reflexivity | ]. split; [ reflexivity | ].
    intros r0 m0 Heq. injection Heq as <- <-. split; [ exact Herr | ].
    rewrite logTypesOf_skeleton, Hsk. reflexivity.
  - destruct H as (Ha & Hc). split; [ exact Ha | ]. split; [ exact Hc | ].
    intros r0 m0 Heq. discriminate Heq.
Qed.

(** The coordinator of the booking saga after its run, played again. *)
Lemma aborted_coordinator_replays_nothing_witness :
  actionsOf
    (trace (final (Play Example.clock
                     (start (coord (final (Example.run Example.booking Example.memStore)))
                            []))))
  = [].
Proof.
  apply (aborted_coordinator_replays_nothing Example.clock
           (coord (final (Example.run Example.booking Example.memStore))) []).
  vm_compute. reflexivity.
Defined.

(** ** Random identifiers *)

Section RandomStrings.

Context {World : Type}.
Variable rand_Intn : nat -> World -> nat * World.

Lemma update_length {A} (b : list A) : forall i x,
  List.length (update b i x) = List.length b.
Proof.
  induction b as [|h t IH]; intros [|i] x; simpl; try reflexivity.
  rewrite IH. reflexivity.
Qed.

Lemma firstn_update {A} (b : list A) : forall i x,
  i < List.length b -> firstn (S i) (update b i x) = firstn i b ++ [x].
Proof.
  induction b as [|h t IH]; intros [|i] x Hi; simpl in *; try lia.
  - reflexivity.
  - f_equal. apply IH. lia.
Qed.

Lemma fillRandom_letters n : forall i b w,
  (forall k w0, 0 < k -> fst (rand_Intn k w0) < k) ->
  List.length b = i + n ->
  Forall (fun ch => List.In ch letters) (firstn i b) ->
  exists b' w',
    fillRandom rand_Intn n i b w = (inr b', w')
    /\ List.length b' = List.length b
    /\ Forall (fun ch => List.In ch letters) (firstn (i + n) b').
Proof.
  induction n as [|n IH]; intros i b w Hrand Hlen Hpre.
  - exists b, w. rewrite Nat.add_0_r. auto.
  - cbn [fillRandom].
    pose proof (Hrand (List.length letters) w) as Hk.
    destruct (rand_Intn (List.length letters) w) as [k w1]. simpl in Hk.
    assert (Hk' : k < List.length letters) by (apply Hk; simpl; lia).
    destruct (nth_error letters k) as [r|] eqn:Hr;
      [ | apply nth_error_None in Hr; lia ].
    destruct (IH (S i) (update b i r) w1 Hrand) as (b' & w' & Hrun & Hl & Hall).
    + rewrite update_length. lia.
    + rewrite firstn_update by lia. apply Forall_app. split; [ exact Hpre | ].
      constructor; [ eapply nth_error_In; exact Hr | constructor ].
    + exists b', w'. rewrite Hrun. split; [ reflexivity | ].
      rewrite Hl, update_length. split; [ reflexivity | ].
      replace (i + S n) with (S i + n) by lia. exact Hall.
Qed.

Lemma length_string_of_list_ascii (l : list ascii) :
  String.length (string_of_list_ascii l) = List.length l.
Proof. induction l as [|a l IH]; simpl; [ reflexivity | rewrite IH; reflexivity ]. Qed.

End RandomStrings.

(** X12. With a random source that draws below its bound, as [rand.Intn]
    does, [RandString] does not panic and returns a string of ten
    characters, each of them one of the 52 unaccented letters. *)
Theorem RandString_is_ten_letters {World : Type}
    (rand_Intn : nat -> World -> nat * World) (w : World) :
  (forall k w0, 0 < k -> fst (rand_Intn k w0) < k) ->
  exists s w',
    RandString rand_Intn w = (inr s, w')
    /\ String.length s = 10
    /\ Forall (fun ch => List.In ch letters) (list_ascii_of_string s).
Proof.
  intros Hrand. unfold RandString.
  destruct (fillRandom_letters rand_Intn (List.length (repeat zero 10)) 0
              (repeat zero 10) w Hrand eq_refl (Forall_nil _))
    as (b' & w' & Hrun & Hlen & Hall).
  rewrite Hrun. exists (string_of_list_ascii b'), w'.
  split; [ reflexivity | ]. split.
  - rewrite length_string_of_list_ascii, Hlen. reflexivity.
  - rewrite list_ascii_of_string_of_list_ascii.
    rewrite <- (firstn_all b'). rewrite Hlen. exact Hall.
Qed.

(** A source that counts: the draws are 0, 1, 2, ... below the bound. *)
Lemma RandString_is_ten_letters_witness :
  exists w', RandString (fun k (w : nat) => (w mod k, S w)) 0 = (inr "abcdefghij", w').
Proof.
  destruct (RandString_is_ten_letters (fun k (w : nat) => (w mod k, S w)) 0)
    as (s & w' & Hrun & _).
  - intros k w0 Hk. simpl. apply Nat.mod_upper_bound. lia.
  - exists w'. rewrite Hrun. vm_compute in Hrun. injection Hrun as <- _. reflexivity.
Defined.

(** ** The causes of a fatal halt *)

Section Causes.

Context {World : Type}.
Variable time_Now : World -> Z * World.
Variable cv : Value.
Variable steps : list (Step.t World).

Let fine (u : unit) (m : Machine World) : Prop := True.
Let caused (v : PanicValue) (m : Machine World) : Prop := Caused steps v (trace m).

Lemma wp_getFuncValue_cases obj Q E (m : Machine World) :
  (forall f, obj = OFunc f -> wellFormed obj = true -> Q f m) ->
  (wellFormed obj = false -> E (PanicString (configError obj)) m) ->
  wp (getFuncValue obj) Q E m.
Proof.
  intros Hok Hbad. destruct (wellFormed obj) eqn:Hwf.
  - apply wp_getFuncValue_ok; [ exact Hwf | ]. intros f Hf. apply Hok; auto.
  - apply wp_getFuncValue_bad; [ exact Hwf | ]. apply Hbad. reflexivity.
Qed.

Ltac wp_cases :=
  lazymatch goal with
  | |- wp (getFuncValue _) _ _ _ => apply wp_getFuncValue_cases; [ intros ? ? ? | intros ? ]
  | _ => wp_prim
  end.

Ltac wp_deep := repeat (wp_cases; cbn beta iota delta [coord world trace]).

Lemma Caused_fault (t : list (Event World)) l e :
  Caused steps (PanicString (Sprintln [] e)) (t ++ [EvAppendLog l (Some e)]).
Proof. left. exists t, l, e. auto. Qed.

Lemma Caused_config (t : list (Event World)) i step obj :
  nth_error steps i = Some step ->
  obj = Step.Func step \/ obj = Step.CompensateFunc step ->
  wellFormed obj = false ->
  Caused steps (PanicString (configError obj)) t.
Proof.
  intros Hnth Hobj Hwf. right. left. exists step, obj.
  split; [ eapply nth_error_In; exact Hnth | auto ].
Qed.

Lemma Caused_action_panic (t : list (Event World)) i f ps v :
  Caused steps v (t ++ [EvAction i f ps (Panicked v)]).
Proof. right. right. left. exists t, i, f, ps. auto. Qed.

Lemma Caused_compensate_panic (t : list (Event World)) i f ps v :
  Caused steps v (t ++ [EvCompensate i f ps (Panicked v)]).
Proof. right. right. left. exists t, i, f, ps. auto. Qed.

Lemma Caused_action_ill (t : list (Event World)) i f ps res v :
  isReturnError res = inl v ->
  Caused steps v (t ++ [EvAction i f ps (Returned res)]).
Proof. intros H. right. right. right. left. exists t, i, f, ps, res. auto. Qed.

Lemma Caused_compensate_ill (t : list (Event World)) i f ps res v :
  isReturnError res = inl v ->
  Caused steps v (t ++ [EvCompensate i f ps (Returned res)]).
Proof. intros H. right. right. right. left. exists t, i, f, ps, res. auto. Qed.

Lemma Caused_compensate_error (t : list (Event World)) i f ps res e :
  isReturnError res = inr (Some e) ->
  Caused steps (PanicError e) (t ++ [EvCompensate i f ps (Returned res)]).
Proof. intros H. right. right. right. right. exists t, i, f, ps, res, e. auto. Qed.

Ltac caused_done :=
  unfold caused; cbn [trace];
  first
    [ exact I
    | apply Caused_fault
    | apply Caused_action_panic
    | apply Caused_compensate_panic
    | apply Caused_action_ill; assumption
    | apply Caused_compensate_ill; assumption
    | apply Caused_compensate_error; assumption
    | eapply Caused_config; [ eassumption | auto | assumption ] ].

Lemma compensateStep_caused e j (m : Machine World) :
  Compensating cv steps e m ->
  j < List.length (toCompensate (coord m)) ->
  List.length (toCompensate (coord m)) = List.length (returnedValuesFromFunc (coord m)) ->
  wp (compensateStep time_Now j) fine caused m.
Proof.
  intros H Hj Hlen. destruct m as [c w t]. cbn [coord] in *.
  assert (Hsteps : Saga.steps (saga c) = steps) by apply H.
  assert (Hlink : Linked cv steps c t) by apply H.
  destruct (nth_error (toCompensate c) j) as [g|] eqn:Hg;
    [ | apply nth_error_None in Hg; lia ].
  destruct (nth_error (returnedValuesFromFunc c) j) as [res|] eqn:Hres;
    [ | apply nth_error_None in Hres; lia ].
  destruct (Hlink j res g Hres Hg) as (f & step & _ & Hstep & _).
  unfold compensateStep, AppendLog, callCompensate.
  wp_go; rewrite ?Hsteps in *; try congruence; caused_done.
Qed.

Lemma compensateFrom_caused e n : forall (m : Machine World),
  Compensating cv steps e m ->
  n <= List.length (toCompensate (coord m)) ->
  List.length (toCompensate (coord m)) = List.length (returnedValuesFromFunc (coord m)) ->
  wp (compensateFrom time_Now n) fine caused m.
Proof.
  induction n as [|n IH]; intros m H Hn Hlen.
  - apply wp_ret. exact I.
  - cbn [compensateFrom]. apply wp_bind.
    eapply wp_mono;
      [ apply wp_both;
        [ apply (compensateStep_compensating time_Now cv steps e n m H)
        | apply (compensateStep_caused e n m H); [ lia | exact Hlen ] ]
      | | intros v m' [_ Hc]; exact Hc ].
    intros ? m1 ((Hco & H1) & _). cbn beta.
    apply IH; [ exact H1 | rewrite Hco; lia | rewrite Hco; exact Hlen ].
Qed.

Lemma abort_caused e (m : Machine World) :
  AboutToAbort cv steps e m ->
  wp (abort time_Now) fine caused m.
Proof.
  intros H. destruct m as [c w t].
  assert (Hlen : List.length (toCompensate c) = List.length (returnedValuesFromFunc c))
    by apply H.
  unfold abort, AppendLog. wp_go.
  - caused_done.
  - apply (compensateFrom_caused e).
    + apply (AboutToAbort_Compensating cv steps e c (set_aborted true c) w);
        [ exact H | repeat split | reflexivity | reflexivity ].
    + apply Nat.le_refl.
    + exact Hlen.
Qed.

Lemma execStep_caused i (m : Machine World) :
  Playing cv steps m ->
  (aborted (coord m) = false -> i = List.length (returnedValuesFromFunc (coord m))) ->
  i < List.length steps ->
  wp (execStep time_Now i) fine caused m.
Proof.
  intros H Hi Hlt. destruct m as [c w t]. cbn [coord] in Hi.
  destruct H as [Hfwd | (Hab & e & Hcomp)].
  - assert (Hcv : reflect_ValueOf (ctx c) = cv) by apply Hfwd.
    assert (Hsteps : Saga.steps (saga c) = steps) by apply Hfwd.
    assert (Hab : aborted c = false) by apply Hfwd.
    specialize (Hi Hab). subst i.
    destruct (nth_error steps (List.length (returnedValuesFromFunc c))) as [step|] eqn:Hstep;
      [ | apply nth_error_None in Hstep; lia ].
    unfold execStep, AppendLog, callAction.
    wp_deep; rewrite ?Hcv, ?Hsteps in *; try congruence.
    all: try match goal with
         | Hs : Some _ = Some _ |- _ => injection Hs as <-
         end.
    all: try solve [ caused_done ].
    eapply wp_mono; [ apply (abort_caused e) | auto | auto ].
    rewrite <- app_assoc.
    eapply (Forwarding_AboutToAbort cv steps e c w); try eassumption; reflexivity.
  - unfold execStep. wp_go; cbn [coord] in *; try congruence. exact I.
Qed.

Lemma playFrom_caused n : forall i (m : Machine World),
  Playing cv steps m ->
  (aborted (coord m) = false -> i = List.length (returnedValuesFromFunc (coord m))) ->
  i + n <= List.length steps ->
  wp (playFrom time_Now n i) fine caused m.
Proof.
  induction n as [|n IH]; intros i m H Hi Hn.
  - apply wp_ret. exact I.
  - cbn [playFrom]. apply wp_bind.
    eapply wp_mono;
      [ apply wp_both;
        [ apply (execStep_playing time_Now cv steps i m H Hi)
        | apply (execStep_caused i m H Hi); lia ]
      | | intros v m' [_ Hc]; exact Hc ].
    intros ? m1 ((H1 & Hi1) & _). cbn beta. apply IH; [ exact H1 | exact Hi1 | lia ].
Qed.

End Causes.

Lemma Play_caused {World : Type} (time_Now : World -> Z * World)
    id cx (sg : Saga.t World) store w :
  wp (Play time_Now) (fun _ _ => True)
     (fun v m' => Caused (Saga.steps sg) v (trace m'))
     (start (fresh id cx sg store) w).
Proof.
  unfold Play, AppendLog. wp_go.
  - apply Caused_fault.
  - eapply wp_mono;
      [ apply wp_both;
        [ apply (playFrom_playing time_Now (reflect_ValueOf cx) (Saga.steps sg));
          [ left; apply fresh_Forwarding; reflexivity | reflexivity ]
        | apply (playFrom_caused time_Now (reflect_ValueOf cx) (Saga.steps sg));
          [ left; apply fresh_Forwarding; reflexivity | reflexivity
          | apply Nat.le_refl ] ]
      | | intros v0 m0 [_ Hc]; exact Hc ].
    intros ? m1 _. cbn beta. wp_go.
    + apply Caused_fault.
    + exact I.
Qed.

(** X10. Every fatal halt of a run of a fresh coordinator has one of five
    causes: an append to the log store returned a fault; a callable of a
    step of the saga is not a function taking the context first; a
    callable panicked itself; the last value that a callable returned
    cannot be read as an error; a compensation returned an error.  The
    accesses of the coordinator to its own slices never fail. *)
Theorem every_halt_has_a_cause {World : Type} (time_Now : World -> Z * World)
    (id : string) (cx : option Context) (sg : Saga.t World) (store : Store World)
    (w : World) (v : PanicValue) (m' : Machine World) :
  Play time_Now (start (fresh id cx sg store) w) = Panic v m' ->
  Caused (Saga.steps sg) v (trace m').
Proof.
  intros HP.
  pose proof (Play_caused time_Now id cx sg store w) as H.
  unfold wp in H. rewrite HP in H. exact H.
Qed.

(** The unregistered saga halts because the action of its step 1 is not a
    function. *)
Lemma every_halt_has_a_cause_witness :
  exists m',
    Caused (Saga.steps Example.unregistered)
      (PanicString (Sprintln [] (errors_New "registered object must be a func")))
      (trace m').
Proof.
  eexists.
  apply (every_halt_has_a_cause Example.clock "run-1" Example.background
           Example.unregistered Example.memStore []).
  vm_compute. reflexivity.
Defined.

(** ** The answers of the collaborators *)

Section Answers.

Context {World : Type}.
Variable time_Now : World -> Z * World.
Variable store : Store World.

Lemma Answered_snoc c w w' t ev :
  Answered store (mkMachine c w t) ->
  answered store ev ->
  Answered store (mkMachine c w' (t ++ [ev])).
Proof.
  intros (Hst & Hall) Hev. split; [ exact Hst | ]. cbn [trace] in *.
  apply Forall_app. split; [ exact Hall | constructor; [ exact Hev | constructor ] ].
Qed.

Lemma Answered_coord c c' w w' t :
  Answered store (mkMachine c w t) ->
  logStore c' = logStore c ->
  Answered store (mkMachine c' w' t).
Proof.
  intros (Hst & Hall) Heq. cbn [coord trace] in *.
  split; [ cbn [coord]; congruence | exact Hall ].
Qed.

Ltac answer w :=
  cbn [coord world trace] in *;
  repeat first
    [ assumption
    | apply (Answered_snoc _ w);
      [ | cbn [answered];
          match goal with
          | Hs : logStore _ = store, H : logStore _ ?l ?w0 = (?r, _)
            |- exists _, fst (store ?l _) = ?r =>
              exists w0; rewrite <- Hs, H; reflexivity
          | H : Call ?f ?ps ?w0 = (?r, _) |- exists _, fst (Call ?f ?ps _) = ?r =>
              exists w0; rewrite H; reflexivity
          end ]
    | apply (Answered_coord _ _ w); [ | reflexivity ] ].

Lemma compensateStep_answered i (m : Machine World) :
  Answered store m ->
  wp (compensateStep time_Now i) (fun _ => Answered store) (fun _ => Answered store) m.
Proof.
  intros H. destruct m as [c w t].
  assert (Hs : logStore c = store) by apply H.
  unfold compensateStep, AppendLog, callCompensate.
  wp_go; answer w.
Qed.

Lemma compensateFrom_answered n : forall (m : Machine World),
  Answered store m ->
  wp (compensateFrom time_Now n) (fun _ => Answered store) (fun _ => Answered store) m.
Proof.
  induction n as [|n IH]; intros m H.
  - apply wp_ret. exact H.
  - cbn [compensateFrom]. apply wp_bind.
    eapply wp_mono; [ apply compensateStep_answered; exact H | | auto ].
    intros ? m1 H1. cbn beta. apply IH. exact H1.
Qed.

Lemma abort_answered (m : Machine World) :
  Answered store m ->
  wp (abort time_Now) (fun _ => Answered store) (fun _ => Answered store) m.
Proof.
  intros H. destruct m as [c w t].
  assert (Hs : logStore c = store) by apply H.
  unfold abort, AppendLog. wp_go.
  - answer w.
  - apply compensateFrom_answered. answer w.
Qed.

Lemma execStep_answered i (m : Machine World) :
  Answered store m ->
  wp (execStep time_Now i) (fun _ => Answered store) (fun _ => Answered store) m.
Proof.
  intros H. destruct m as [c w t].
  assert (Hs : logStore c = store) by apply H.
  unfold execStep, AppendLog, getFuncValue, callAction.
  wp_go.
  all: try match goal with
       | |- wp (abort _) _ _ _ => apply abort_answered
       end.
  all: answer w.
Qed.

Lemma playFrom_answered n : forall i (m : Machine World),
  Answered store m ->
  wp (playFrom time_Now n i) (fun _ => Answered store) (fun _ => Answered store) m.
Proof.
  induction n as [|n IH]; intros i m H.
  - apply wp_ret. exact H.
  - cbn [playFrom]. apply wp_bind.
    eapply wp_mono; [ apply execStep_answered; exact H | | auto ].
    intros ? m1 H1. cbn beta. apply IH. exact H1.
Qed.

Lemma Play_answered (m : Machine World) :
  Answered store m ->
  wp (Play time_Now) (fun _ => Answered store) (fun _ => Answered store) m.
Proof.
  intros H. destruct m as [c w t].
  assert (Hs : logStore c = store) by apply H.
  unfold Play, AppendLog. wp_go.
  - answer w.
  - eapply wp_mono; [ apply playFrom_answered; answer w | | auto ].
    intros ? [cp wq tp] Hp. cbn beta.
    assert (Hsp : logStore cp = store) by apply Hp.
    wp_go; answer wq.
Qed.

End Answers.

(** ** Runs that return *)

Lemma behaves_wellFormed {World : Type} (cv : Value) (step : Step.t World)
    (obj : Object World) :
  behaves cv step ->
  obj = Step.Func step \/ obj = Step.CompensateFunc step ->
  wellFormed obj = true.
Proof.
  intros [(f & Hf & Hwf & _) (f' & g & _ & Hg & Hgwf & _)] [-> | ->].
  - rewrite Hf. exact Hwf.
  - rewrite Hg. exact Hgwf.
Qed.

(** X11. When the store never faults and the callables of every step behave
    (they pass [getFuncValue], the actions, called on the context, return
    results whose last value reads as an error or as nil, the
    compensations, called on the context followed by the results of their
    action less the last one, return a nil error), [Play] returns a
    Result: it halts on no saga, long or short, whichever actions fail. *)
Theorem Play_returns_when_nothing_fails {World : Type}
    (time_Now : World -> Z * World) (id : string) (cx : option Context)
    (sg : Saga.t World) (store : Store World) (w : World) :
  storeNeverFaults store ->
  Forall (behaves (reflect_ValueOf cx)) (Saga.steps sg) ->
  exists r m', Play time_Now (start (fresh id cx sg store) w) = Ret r m'.
Proof.
  intros Hst Hall.
  pose proof (Play_caused time_Now id cx sg store w) as Hc.
  pose proof (Play_final_Audited time_Now id cx sg store w) as (_ & _ & Haud & _).
  assert (Hans : Answered store (final (Play time_Now (start (fresh id cx sg store) w)))).
  { apply (wp_final (Play time_Now)). apply Play_answered.
    split; [ reflexivity | constructor ]. }
  destruct Hans as (_ & Hans).
  assert (Hjust : Justified (reflect_ValueOf cx) (Saga.steps sg)
                    (trace (final (Play time_Now (start (fresh id cx sg store) w))))).
  { apply (wp_final (Play time_Now)
             (fun m' => Justified (reflect_ValueOf cx) (Saga.steps sg) (trace m'))).
    eapply wp_mono; [ apply (Play_played time_Now id cx sg store w) | | ].
    - intros r m1 H. apply H.
    - intros v m1 H. apply H. }
  unfold wp in Hc.
  destruct (Play time_Now (start (fresh id cx sg store) w)) as [r m' | v m'].
  - exists r, m'. reflexivity.
  - exfalso. cbn [final] in *. rewrite Forall_forall in Haud, Hans, Hall.
    assert (Hact : forall t0 i f ps r,
               trace m' = t0 ++ [EvAction i f ps r] ->
               exists res oe, r = Returned res /\ isReturnError res = inr oe).
    { intros t0 i f ps r Ht.
      assert (Hin : List.In (EvAction i f ps r) (trace m'))
        by (rewrite Ht; apply in_or_app; right; left; reflexivity).
      destruct (Haud _ Hin) as (Hps & _ & step & Hstep & Hf).
      destruct (Hans _ Hin) as (w0 & Hw0).
      destruct (Hall step (nth_error_In _ _ Hstep)) as [(f' & Hf' & _ & Hret) _].
      cbn [fresh set_ExecutionID NewCoordinator saga ctx] in Hstep, Hps.
      rewrite Hf in Hf'. injection Hf' as <-. subst ps.
      destruct (Hret w0) as (res & oe & Hres & Hoe).
      exists res, oe. split; [ congruence | exact Hoe ]. }
    assert (Hcomp : forall t0 i g ps r,
               trace m' = t0 ++ [EvCompensate i g ps r] ->
               exists res, r = Returned res /\ isReturnError res = inr None).
    { intros t0 i g ps r Ht.
      assert (Hin : List.In (EvCompensate i g ps r) (trace m'))
        by (rewrite Ht; apply in_or_app; right; left; reflexivity).
      destruct (Hjust t0 [] i g ps r Ht) as (f & res0 & step & Hact0 & Hps & Hstep & Hf & Hg).
      destruct (Hans _ Hin) as (w0 & Hw0).
      assert (Hin0 : List.In (EvAction i f [reflect_ValueOf cx] (Returned res0)) (trace m'))
        by (rewrite Ht; apply in_or_app; left; exact Hact0).
      destruct (Hans _ Hin0) as (w1 & Hw1).
      destruct (Hall step (nth_error_In _ _ Hstep))
        as [_ (f' & g' & Hf' & Hg' & _ & Hnil)].
      rewrite Hf in Hf'. injection Hf' as <-.
      rewrite Hg in Hg'. injection Hg' as <-. subst ps.
      destruct (Hnil w1 res0 Hw1 w0) as (res & Hres & Hok).
      exists res. split; [ congruence | exact Hok ]. }
    destruct Hc as [(t0 & l & e & Ht & _)
                   | [(step & obj & Hin & Hobj & Hwf & _)
                     | [(t0 & i & f & ps & [Ht | Ht])
                       | [(t0 & i & f & ps & res & [Ht | Ht] & Hill)
                         | (t0 & i & g & ps & res & e & Ht & He & _)]]]].
    + assert (Hin : List.In (EvAppendLog l (Some e)) (trace m'))
        by (rewrite Ht; apply in_or_app; right; left; reflexivity).
      destruct (Hans _ Hin) as (w0 & Hw0). rewrite (Hst l w0) in Hw0. discriminate Hw0.
    + rewrite (behaves_wellFormed _ step obj (Hall step Hin) Hobj) in Hwf. discriminate Hwf.
    + destruct (Hact _ _ _ _ _ Ht) as (res & oe & Hr & _). discriminate Hr.
    + destruct (Hcomp _ _ _ _ _ Ht) as (res & Hr & _). discriminate Hr.
    + destruct (Hact _ _ _ _ _ Ht) as (res' & oe & Hr & Hoe).
      injection Hr as <-. congruence.
    + destruct (Hcomp _ _ _ _ _ Ht) as (res' & Hr & Hok).
      injection Hr as <-. congruence.
    + destruct (Hcomp _ _ _ _ _ Ht) as (res' & Hr & Hok).
      injection Hr as <-. congruence.
Qed.

Lemma booking_behaves :
  Forall (behaves (reflect_ValueOf Example.background)) (Saga.steps Example.booking).
Proof.
  constructor; [ | constructor; [ | constructor; [ | constructor ] ] ].
  - split; [ | exact ExampleFacts.stepReserve_undoes ].
    exists Example.reserve. split; [ reflexivity | ]. split; [ reflexivity | ].
    intros w. exists [VInt 42; VError None], None. split; reflexivity.
  - split; [ | exact ExampleFacts.stepCharge_undoes ].
    exists Example.charge. split; [ reflexivity | ]. split; [ reflexivity | ].
    intros w. eexists _, _. split; reflexivity.
  - split; [ | exact ExampleFacts.stepShip_undoes ].
    exists Example.refund. split; [ reflexivity | ]. split; [ reflexivity | ].
    intros w. exists [VError None], None. split; reflexivity.
Qed.

(** The booking saga, whose second action fails, returns a Result. *)
Lemma Play_returns_when_nothing_fails_witness :
  exists r m',
    Play Example.clock
      (start (fresh "run-1" Example.background Example.booking Example.memStore) [])
    = Ret r m'.
Proof.
  exact (Play_returns_when_nothing_fails Example.clock "run-1" Example.background
           Example.booking Example.memStore []
           ExampleFacts.memStore_never_faults booking_behaves).
Defined.
